(** * Resource lifecycle and resilience subsystem of mcp-software-engineer

    A shallow embedding of
      - utils/errors.ts           (error taxonomy, [ErrorHandler.retry],
                                   [ErrorHandler.createCircuitBreaker]),
      - utils/resource-manager.ts ([ResourceManager], [ConnectionPool]),
      - config/security.ts        ([RateLimiter], [SecurityManager]),
      - monitoring/metrics.ts     ([MetricsCollector]),
      - tools/base-tool.ts        ([BaseTool], [DatabaseTool]),
      - monitoring/auto-recovery.ts ([AutoRecoverySystem]).

    Conventions.  [Date.now()] readings are integers ([Z]) handed to the
    model as inputs.  A JavaScript [Map<string, _>] is a [gmap string _].
    An [async] method is modelled at the granularity of one call that runs
    from entry to settlement: what the awaited collaborators do (resolve,
    reject, throw) is an input of the step, and the state change of the
    whole call is its output.  A thrown exception or rejected promise is
    the [Thrown] result.  Where calls on one object can overlap and the
    outcome depends on it (the circuit breaker, the connection pool),
    the parts of a call between its [await]s are turns of their own
    ([Breaker.turn], [Pool.turn]), and the one-step definitions are
    shown to be these parts run without interruption. *)

From Stdlib Require Import ZArith Lia Bool Floats Ascii.
From stdpp Require Import base option list gmap strings pretty sorting.

Open Scope string_scope.
Open Scope Z_scope.
Open Scope list_scope.

(** ** Part I: the embedding *)

(** *** utils/errors.ts: the error classes *)

Module Errors.

(** One constructor per class declared in errors.ts, plus the built-in
    [Error]. *)
Inductive ErrorClass : Set :=
| PlainError
| BaseError
| ValidationError
| AuthenticationError
| AuthorizationError
| NotFoundError
| ConflictError
| RateLimitError
| ResourceExhaustedError
| TimeoutError
| ExternalServiceError
| DatabaseError.

#[global] Instance ErrorClass_eq_dec : EqDecision ErrorClass.
Proof. solve_decision. Defined.

(** An [Error] object: its class and its [message]. *)
Record JsError : Set := mkError { cls : ErrorClass; message : string }.

#[global] Instance JsError_eq_dec : EqDecision JsError.
Proof. solve_decision. Defined.

(** [e instanceof C].  Every class of errors.ts extends [BaseError]
    directly, and [BaseError] extends [Error]. *)
Definition instanceOf (e : JsError) (c : ErrorClass) : bool :=
  match c with
  | PlainError => true
  | BaseError => negb (bool_decide (cls e = PlainError))
  | _ => bool_decide (cls e = c)
  end.

(** [new TimeoutError(operation, timeoutMs)], lines 107-121. *)
Definition newTimeoutError (operation : string) (timeoutMs : Z) : JsError :=
  mkError TimeoutError
    ("Operation '" +:+ operation +:+ "' timed out after "
       +:+ pretty timeoutMs +:+ "ms").

(** [new ResourceExhaustedError(resourceType, limit, current)],
    lines 89-105. *)
Definition newResourceExhaustedError
    (resourceType : string) (limit current : Z) : JsError :=
  mkError ResourceExhaustedError
    ("Resource limit exceeded for " +:+ resourceType +:+ ": "
       +:+ pretty current +:+ "/" +:+ pretty limit).

(** The settlement of an awaited call. *)
Inductive Result (V : Type) : Type :=
| Returned (v : V)
| Thrown (e : JsError).
Arguments Returned {V} v.
Arguments Thrown {V} e.

End Errors.

(** *** utils/errors.ts: [ErrorHandler.createCircuitBreaker] *)

Module Breaker.
Import Errors.

Inductive BState : Set := closed | open | half_open.

#[global] Instance BState_eq_dec : EqDecision BState.
Proof. solve_decision. Defined.

(** The three variables captured by the returned closure
    (lines 301-303). *)
Record Breaker : Set := mkBreaker {
  failures : Z;
  lastFailureTime : Z;
  state : BState
}.

Record Options : Set := mkOptions {
  threshold : Z;
  timeout : Z;
  resetTimeout : Z
}.

(** The [options] argument with its destructuring defaults
    (lines 295-299): a default applies to an absent field only. *)
Record RawOptions : Set := mkRaw {
  raw_threshold : option Z;
  raw_timeout : option Z;
  raw_resetTimeout : option Z
}.

Definition defaults (r : RawOptions) : Options :=
  {| threshold := default 5 (raw_threshold r);
     timeout := default 60000 (raw_timeout r);
     resetTimeout := default 30000 (raw_resetTimeout r) |}.

Definition initial : Breaker :=
  {| failures := 0; lastFailureTime := 0; state := closed |}.

(** How [Promise.race([fn(...args), timer])] settles: the wrapped
    function wins and fulfils, wins and rejects (or throws while being
    called), or the timer wins. *)
Inductive Race (V : Type) : Type :=
| Fulfils (v : V)
| Rejects (e : JsError)
| TimesOut.
Arguments Fulfils {V} v.
Arguments Rejects {V} e.
Arguments TimesOut {V}.

(** What one call of the wrapper meets: the clock at line 308, the
    settlement of the race, and the clock at line 335. *)
Record Call (V : Type) : Type := mkCall {
  entry_now : Z;
  race : Race V;
  catch_now : Z
}.
Arguments mkCall {V} _ _ _.
Arguments entry_now {V} _.
Arguments race {V} _.
Arguments catch_now {V} _.

(** Lines 306-311. *)
Definition maybe_reset (o : Options) (now : Z) (b : Breaker) : Breaker :=
  if bool_decide (state b = open)
     && bool_decide (now - lastFailureTime b > resetTimeout o)
  then {| failures := 0; lastFailureTime := lastFailureTime b;
          state := half_open |}
  else b.

(** Lines 326-330. *)
Definition on_success (b : Breaker) : Breaker :=
  {| failures := 0;
     lastFailureTime := lastFailureTime b;
     state := if bool_decide (state b = half_open) then closed else state b |}.

(** Lines 334-339. *)
Definition on_failure (o : Options) (now : Z) (b : Breaker) : Breaker :=
  let f := failures b + 1 in
  {| failures := f;
     lastFailureTime := now;
     state := if bool_decide (f >= threshold o) then open else state b |}.

(** What a call of the wrapper reports: its settlement and whether the
    wrapped function was invoked at all. *)
Record Report (V : Type) : Type := mkReport {
  result : Result V;
  invoked : bool
}.
Arguments mkReport {V} _ _.
Arguments result {V} _.
Arguments invoked {V} _.

(** The returned closure, lines 305-343, for a call during which no
    other call of the wrapper runs: the part before the [await] of line
    319 and the part after it are taken in one step.  ([enter] and
    [settle] below are the two parts.) *)
Definition call {V} (o : Options) (b : Breaker) (c : Call V)
  : Breaker * Report V :=
  let b1 := maybe_reset o (entry_now c) b in
  if bool_decide (state b1 = open) then
    (b1, mkReport (Thrown (mkError PlainError "Circuit breaker is open")) false)
  else
    match race c with
    | Fulfils v => (on_success b1, mkReport (Returned v) true)
    | Rejects e => (on_failure o (catch_now c) b1, mkReport (Thrown e) true)
    | TimesOut =>
        (on_failure o (catch_now c) b1,
         mkReport (Thrown (newTimeoutError "Circuit breaker timeout" (timeout o)))
                  true)
    end.

(** A sequence of calls, each run to settlement before the next; the
    reports are collected most recent first. *)
Fixpoint run {V} (o : Options) (b : Breaker) (log : list (Report V))
    (cs : list (Call V)) : Breaker * list (Report V) :=
  match cs with
  | [] => (b, log)
  | c :: cs' =>
      let '(b', r) := call o b c in
      run o b' (r :: log) cs'
  end.

(** The closure up to its [await], lines 306-319: the reset check and
    the fail-fast test.  [true] says that the call got past them, so
    that the wrapped function and the timer have been started and the
    call awaits their race. *)
Definition enter (o : Options) (now : Z) (b : Breaker) : Breaker * bool :=
  let b1 := maybe_reset o now b in
  (b1, negb (bool_decide (state b1 = open))).

(** The closure from the settlement of the race on, lines 325-342,
    run on the variables as they are by then; [now] is the clock at
    line 335. *)
Definition settle {V} (o : Options) (r : Race V) (now : Z) (b : Breaker)
  : Breaker * Report V :=
  match r with
  | Fulfils v => (on_success b, mkReport (Returned v) true)
  | Rejects e => (on_failure o now b, mkReport (Thrown e) true)
  | TimesOut =>
      (on_failure o now b,
       mkReport (Thrown (newTimeoutError "Circuit breaker timeout" (timeout o)))
                true)
  end.

(** What runs without interruption when calls of one wrapper overlap:
    a call is made and reaches its [await] (or is turned away), or the
    race of a call that is waiting settles. *)
Inductive Turn (V : Type) : Type :=
| Enter (now : Z)
| Settle (r : Race V) (now : Z).
Arguments Enter {V} now.
Arguments Settle {V} r now.

(** The variables of the closure, the number of calls that await their
    race, and the reports of the calls that are over, most recent
    first. *)
Record Wrapper (V : Type) : Type := mkWrapper {
  vars : Breaker;
  in_flight : nat;
  reports : list (Report V)
}.
Arguments mkWrapper {V} _ _ _.
Arguments vars {V} _.
Arguments in_flight {V} _.
Arguments reports {V} _.

Definition start {V} : Wrapper V :=
  {| vars := initial; in_flight := 0; reports := [] |}.

(** One turn; a race can only settle for a call that is waiting. *)
Definition turn {V} (o : Options) (w : Wrapper V) (t : Turn V)
  : option (Wrapper V) :=
  match t with
  | Enter now =>
      let '(b1, admitted) := enter o now (vars w) in
      Some (if admitted
            then {| vars := b1; in_flight := S (in_flight w);
                    reports := reports w |}
            else {| vars := b1; in_flight := in_flight w;
                    reports :=
                      mkReport (Thrown (mkError PlainError "Circuit breaker is open"))
                               false :: reports w |})
  | Settle r now =>
      match in_flight w with
      | O => None
      | S n =>
          let '(b', rep) := settle o r now (vars w) in
          Some {| vars := b'; in_flight := n; reports := rep :: reports w |}
      end
  end.

(** A schedule of turns, [None] when it asks for a turn that cannot
    happen. *)
Fixpoint interleave {V} (o : Options) (w : Wrapper V) (ts : list (Turn V))
  : option (Wrapper V) :=
  match ts with
  | [] => Some w
  | t :: ts' =>
      match turn o w t with
      | Some w' => interleave o w' ts'
      | None => None
      end
  end.

(** A call that ran the wrapped function and ended in an exception. *)
Definition failed {V} (r : Report V) : bool :=
  invoked r && match result r with Thrown _ => true | Returned _ => false end.

(** Length of the run of failed executions at the recent end of a log. *)
Fixpoint streak {V} (log : list (Report V)) : Z :=
  match log with
  | r :: log' => if failed r then 1 + streak log' else 0
  | [] => 0
  end.

(** While the breaker is not open, its counter never exceeds the number
    of failed executions at the recent end of the log. *)
Definition counted {V} (b : Breaker) (log : list (Report V)) : Prop :=
  state b <> open -> failures b <= streak log.

End Breaker.

(** *** utils/errors.ts: [ErrorHandler.retry] and [shouldRetry] *)

Module Retry.
Import Errors.

(** [hay.includes(needle)]. *)
Fixpoint includes (hay needle : string) : bool :=
  String.prefix needle hay
  || match hay with
     | EmptyString => false
     | String _ rest => includes rest needle
     end.

(** Lines 260-282. *)
Definition shouldRetry (e : JsError) : bool :=
  if includes (message e) "ECONNREFUSED"
     || includes (message e) "ETIMEDOUT"
     || includes (message e) "ENOTFOUND"
  then true
  else if instanceOf e TimeoutError || instanceOf e ExternalServiceError
  then true
  else if instanceOf e DatabaseError
  then includes (message e) "deadlock"
       || includes (message e) "timeout"
       || includes (message e) "connection"
  else false.

(** The numeric options after their destructuring defaults
    (lines 214-220). *)
Record Options : Set := mkOptions {
  maxAttempts : Z;
  initialDelay : Z;
  maxDelay : Z;
  factor : Z
}.

Record RawOptions : Set := mkRaw {
  raw_maxAttempts : option Z;
  raw_initialDelay : option Z;
  raw_maxDelay : option Z;
  raw_factor : option Z
}.

Definition defaults (r : RawOptions) : Options :=
  {| maxAttempts := default 3 (raw_maxAttempts r);
     initialDelay := default 100 (raw_initialDelay r);
     maxDelay := default 5000 (raw_maxDelay r);
     factor := default 2 (raw_factor r) |}.

(** Lines 241-244. *)
Definition backoff (o : Options) (attempt : Z) : Z :=
  Z.min (initialDelay o * factor o ^ (attempt - 1)) (maxDelay o).

(** What [retry] does that its environment can see, in order: the
    k-th invocation of [operation] (counted from 0), a call of
    [onRetry], a [setTimeout] wait. *)
Inductive Event : Set :=
| Invoked (k : nat)
| OnRetry (e : JsError) (attempt : Z)
| Slept (delay : Z).

#[global] Instance Event_eq_dec : EqDecision Event.
Proof. solve_decision. Defined.

(** How the promise returned by [retry] settles.  [RejectedUndefined]
    is line 254 reached with [lastError] never assigned. *)
Inductive Outcome (V : Type) : Type :=
| Resolved (v : V)
| RejectedWith (e : JsError)
| RejectedUndefined.
Arguments Resolved {V} v.
Arguments RejectedWith {V} e.
Arguments RejectedUndefined {V}.

Section WithOperation.
Context {V : Type}.
(** [operation]: how its k-th invocation settles. *)
Variable operation : nat -> Result V.
(** [onRetry], when given: [None] when the callback returns,
    [Some e'] when it throws [e']. *)
Variable onRetry : option (JsError -> Z -> option JsError).
Variable o : Options.

(** The [for] loop of lines 224-252; [fuel] is the number of
    iterations left before [attempt <= maxAttempts] turns false. *)
Fixpoint attempts (fuel : nat) (attempt : Z) (k : nat)
    (lastError : option JsError) (tr : list Event)
  : Outcome V * list Event :=
  match fuel with
  | O =>
      (match lastError with
       | Some e => RejectedWith e
       | None => RejectedUndefined
       end, tr)
  | S fuel' =>
      let tr1 := tr ++ [Invoked k] in
      match operation k with
      | Returned v => (Resolved v, tr1)
      | Thrown e =>
          if bool_decide (attempt = maxAttempts o) then (RejectedWith e, tr1)
          else if negb (shouldRetry e) then (RejectedWith e, tr1)
          else
            let delay := backoff o attempt in
            match onRetry with
            | Some cb =>
                match cb e attempt with
                | Some e' => (RejectedWith e', tr1 ++ [OnRetry e attempt])
                | None =>
                    attempts fuel' (attempt + 1) (S k) (Some e)
                      (tr1 ++ [OnRetry e attempt; Slept delay])
                end
            | None =>
                attempts fuel' (attempt + 1) (S k) (Some e)
                  (tr1 ++ [Slept delay])
            end
      end
  end.

Definition retry : Outcome V * list Event :=
  attempts (Z.to_nat (maxAttempts o)) 1 0%nat None [].

End WithOperation.

Definition is_invocation (ev : Event) : bool :=
  match ev with Invoked _ => true | _ => false end.
Definition is_onRetry (ev : Event) : bool :=
  match ev with OnRetry _ _ => true | _ => false end.
Definition is_sleep (ev : Event) : bool :=
  match ev with Slept _ => true | _ => false end.

Definition count (p : Event -> bool) (tr : list Event) : nat :=
  length (List.filter p tr).

(** A wait that lasts at most [maxDelay]. *)
Definition sleep_within (o : Options) (ev : Event) : Prop :=
  match ev with
  | Slept d => d <= maxDelay o
  | _ => True
  end.

End Retry.

(** *** utils/errors.ts: [retry] around a circuit breaker *)

Module Resilience.
Import Errors Breaker.

(** The breaker as it stands when its k-th call (counted from 0)
    starts, the earlier calls having run to settlement. *)
Fixpoint breaker_before {V} (o : Options) (b : Breaker)
    (calls : nat -> Call V) (k : nat) : Breaker :=
  match k with
  | O => b
  | S k' =>
      (call o (breaker_before o b calls k') (calls k')).1
  end.

(** [() => wrapped(...args)] handed to [retry] as its operation, where
    [wrapped] is a circuit breaker: how the k-th invocation settles. *)
Definition guarded {V} (o : Options) (b : Breaker)
    (calls : nat -> Call V) (k : nat) : Result V :=
  result (call o (breaker_before o b calls k) (calls k)).2.

(** Which calls count as failures of the wrapped function. *)
Definition fails {V} (c : Call V) : Prop :=
  match race c with Fulfils _ => False | _ => True end.

End Resilience.

(** *** A state-and-exception monad for the stateful classes *)

Module StateErr.
Import Errors.

(** A computation over a mutable state [S] that returns or throws. *)
Definition M (S A : Type) : Type := S -> S * Result A.

Definition ret {S A} (a : A) : M S A := fun s => (s, Returned a).
Definition throw {S A} (e : JsError) : M S A := fun s => (s, Thrown e).
Definition bind {S A B} (m : M S A) (k : A -> M S B) : M S B :=
  fun s =>
    match m s with
    | (s', Returned a) => k a s'
    | (s', Thrown e) => (s', Thrown e)
    end.
Definition get {S} : M S S := fun s => (s, Returned s).
Definition modify {S} (f : S -> S) : M S unit := fun s => (f s, Returned tt).

(** [try { m } catch (e) { h e }]. *)
Definition try_catch {S A} (m : M S A) (h : JsError -> M S A) : M S A :=
  fun s =>
    match m s with
    | (s', Thrown e) => h e s'
    | r => r
    end.

(** [for (const x of xs) { body x }]. *)
Fixpoint for_each {S A} (xs : list A) (body : A -> M S unit) : M S unit :=
  match xs with
  | [] => ret tt
  | x :: xs' => bind (body x) (fun _ => for_each xs' body)
  end.

(** [await Promise.allSettled(ms)]: every computation runs, every
    settlement is collected, nothing is rethrown. *)
Fixpoint all_settled {S A} (ms : list (M S A)) : M S (list (Result A)) :=
  match ms with
  | [] => ret []
  | m :: ms' =>
      fun s =>
        let '(s1, r) := m s in
        let '(s2, rs) := all_settled ms' s1 in
        (s2, match rs with
             | Returned rs' => Returned (r :: rs')
             | Thrown e => Thrown e
             end)
  end.

(** [try { m } finally { f }]: [f] runs either way, and what it throws
    replaces the outcome of [m]. *)
Definition finally {S A} (m : M S A) (f : M S unit) : M S A :=
  fun s =>
    let '(s1, r) := m s in
    match f s1 with
    | (s2, Returned _) => (s2, r)
    | (s2, Thrown e) => (s2, Thrown e)
    end.

Notation "'let*' x ':=' m 'in' k" := (bind m (fun x => k))
  (at level 10, x name, m at level 100, k at level 200, only parsing).
Notation "m1 ';;;' m2" := (bind m1 (fun _ => m2))
  (at level 100, right associativity, only parsing).

End StateErr.

(** *** utils/resource-manager.ts: [ResourceManager] *)

(** The calls of [logger] and [clearTimeout] return and touch none of
    the maps; they do not appear below. *)

Module Ledger.
Import Errors StateErr.

(** What calling a method does. *)
Inductive Behaviour : Set :=
| Succeeds
| Throws (e : JsError).

(** A [ChildProcess] as far as the manager looks at it: the [killed]
    flag and what [process.kill(signal)] does. *)
Record Process : Set := mkProcess {
  killed : bool;
  kill : Behaviour
}.

(** A [NodeJS.Timeout]. *)
Record Timer : Set := mkTimer { timer_ref : Z }.

(** An [any]-typed handle (connection or file handle): whether it is
    truthy, and for each of [close], [end], [disconnect] whether it is
    a function and what calling it does. *)
Record Handle : Set := mkHandle {
  truthy : bool;
  close : option Behaviour;
  end_ : option Behaviour;
  disconnect : option Behaviour
}.

(** The four maps of lines 14-17.  The [memoryUsage] sample is a float
    that registration and cleanup never touch; it is left out. *)
Record Ledger : Type := mkLedger {
  processes : gmap string Process;
  timers : gmap string Timer;
  connections : gmap string Handle;
  fileHandles : gmap string Handle
}.

Definition empty : Ledger :=
  {| processes := ∅; timers := ∅; connections := ∅; fileHandles := ∅ |}.

(** [limits], lines 22-27. *)
Definition maxProcesses : nat := 10.
Definition maxConnections : nat := 100.
Definition maxFileHandles : nat := 50.
Definition maxTimers : nat := 100.

Definition set_processes (f : gmap string Process -> gmap string Process)
    (l : Ledger) : Ledger :=
  {| processes := f (processes l); timers := timers l;
     connections := connections l; fileHandles := fileHandles l |}.
Definition set_timers (f : gmap string Timer -> gmap string Timer)
    (l : Ledger) : Ledger :=
  {| processes := processes l; timers := f (timers l);
     connections := connections l; fileHandles := fileHandles l |}.
Definition set_connections (f : gmap string Handle -> gmap string Handle)
    (l : Ledger) : Ledger :=
  {| processes := processes l; timers := timers l;
     connections := f (connections l); fileHandles := fileHandles l |}.
Definition set_fileHandles (f : gmap string Handle -> gmap string Handle)
    (l : Ledger) : Ledger :=
  {| processes := processes l; timers := timers l;
     connections := connections l; fileHandles := f (fileHandles l) |}.

(** Calling a method of a handle. *)
Definition invoke (b : Behaviour) : M Ledger unit :=
  match b with
  | Succeeds => ret tt
  | Throws e => throw e
  end.

(** Lines 52-64.  The [exit] listener attached at line 61 calls
    [unregisterProcess id] at some later point. *)
Definition registerProcess (id : string) (p : Process) : M Ledger unit :=
  let* l := get in
  if (maxProcesses <=? size (processes l))%nat
  then throw (mkError PlainError "Maximum number of processes reached")
  else modify (set_processes (insert id p)).

(** Lines 69-87.  The delayed SIGKILL of lines 77-81 does not touch
    the maps. *)
Definition unregisterProcess (id : string) : M Ledger unit :=
  let* l := get in
  match processes l !! id with
  | Some p =>
      (if negb (killed p) then invoke (kill p) else ret tt) ;;;
      modify (set_processes (delete id))
  | None => ret tt
  end.

(** Lines 92-98. *)
Definition registerTimer (id : string) (t : Timer) : M Ledger unit :=
  let* l := get in
  if (maxTimers <=? size (timers l))%nat
  then throw (mkError PlainError "Maximum number of timers reached")
  else modify (set_timers (insert id t)).

(** Lines 103-109. *)
Definition unregisterTimer (id : string) : M Ledger unit :=
  let* l := get in
  match timers l !! id with
  | Some _ => modify (set_timers (delete id))
  | None => ret tt
  end.

(** Lines 114-121. *)
Definition registerConnection (id : string) (c : Handle) : M Ledger unit :=
  let* l := get in
  if (maxConnections <=? size (connections l))%nat
  then throw (mkError PlainError "Maximum number of connections reached")
  else modify (set_connections (insert id c)).

(** Lines 131-137: the first of [close], [end], [disconnect] that is
    a function is called. *)
Definition close_connection (c : Handle) : M Ledger unit :=
  match close c, end_ c, disconnect c with
  | Some b, _, _ => invoke b
  | None, Some b, _ => invoke b
  | None, None, Some b => invoke b
  | None, None, None => ret tt
  end.

(** Lines 126-145. *)
Definition unregisterConnection (id : string) : M Ledger unit :=
  let* l := get in
  match connections l !! id with
  | Some c =>
      if truthy c then
        try_catch (close_connection c) (fun _ => ret tt) ;;;
        modify (set_connections (delete id))
      else ret tt
  | None => ret tt
  end.

(** Lines 150-156. *)
Definition registerFileHandle (id : string) (h : Handle) : M Ledger unit :=
  let* l := get in
  if (maxFileHandles <=? size (fileHandles l))%nat
  then throw (mkError PlainError "Maximum number of file handles reached")
  else modify (set_fileHandles (insert id h)).

(** Lines 161-174. *)
Definition unregisterFileHandle (id : string) : M Ledger unit :=
  let* l := get in
  match fileHandles l !! id with
  | Some h =>
      if truthy h then
        try_catch
          (match close h with Some b => invoke b | None => ret tt end)
          (fun _ => ret tt) ;;;
        modify (set_fileHandles (delete id))
      else ret tt
  | None => ret tt
  end.

(** [getUsage], lines 203-217, without [memoryMB]. *)
Record Usage : Set := mkUsage {
  u_processes : nat;
  u_connections : nat;
  u_fileHandles : nat;
  u_timers : nat
}.

Definition getUsage (l : Ledger) : Usage :=
  {| u_processes := size (processes l);
     u_connections := size (connections l);
     u_fileHandles := size (fileHandles l);
     u_timers := size (timers l) |}.

(** Lines 222-260. *)
Definition cleanup : M Ledger unit :=
  let* l := get in
  for_each (map_to_list (processes l))
    (fun '(id, p) =>
       try_catch (if negb (killed p) then invoke (kill p) else ret tt)
                 (fun _ => ret tt)) ;;;
  for_each (map_to_list (timers l)) (fun _ => ret tt) ;;;
  let* l1 := get in
  all_settled (unregisterConnection <$> (map_to_list (connections l1)).*1) ;;;
  let* l2 := get in
  all_settled (unregisterFileHandle <$> (map_to_list (fileHandles l2)).*1) ;;;
  modify (set_processes (fun _ => ∅)) ;;;
  modify (set_timers (fun _ => ∅)) ;;;
  modify (set_connections (fun _ => ∅)) ;;;
  modify (set_fileHandles (fun _ => ∅)).

(** The four kinds of resource and the resources themselves. *)
Inductive Kind : Set := KProcess | KTimer | KConnection | KFileHandle.

Inductive Resource : Set :=
| RProcess (p : Process)
| RTimer (t : Timer)
| RConnection (c : Handle)
| RFileHandle (h : Handle).

Definition kind_of (r : Resource) : Kind :=
  match r with
  | RProcess _ => KProcess
  | RTimer _ => KTimer
  | RConnection _ => KConnection
  | RFileHandle _ => KFileHandle
  end.

Definition cap (k : Kind) : nat :=
  match k with
  | KProcess => maxProcesses
  | KTimer => maxTimers
  | KConnection => maxConnections
  | KFileHandle => maxFileHandles
  end.

Definition count (k : Kind) (l : Ledger) : nat :=
  match k with
  | KProcess => size (processes l)
  | KTimer => size (timers l)
  | KConnection => size (connections l)
  | KFileHandle => size (fileHandles l)
  end.

Definition plural (k : Kind) : string :=
  match k with
  | KProcess => "processes"
  | KTimer => "timers"
  | KConnection => "connections"
  | KFileHandle => "file handles"
  end.

(** The register and unregister switches of [withResource],
    lines 272-304. *)
Definition register (id : string) (r : Resource) : M Ledger unit :=
  match r with
  | RProcess p => registerProcess id p
  | RTimer t => registerTimer id t
  | RConnection c => registerConnection id c
  | RFileHandle h => registerFileHandle id h
  end.

Definition unregister (k : Kind) (id : string) : M Ledger unit :=
  match k with
  | KProcess => unregisterProcess id
  | KTimer => unregisterTimer id
  | KConnection => unregisterConnection id
  | KFileHandle => unregisterFileHandle id
  end.

(** A call made on the manager by its users. *)
Inductive Op : Set :=
| Register (id : string) (r : Resource)
| Unregister (k : Kind) (id : string)
| Cleanup.

Definition step (op : Op) : M Ledger unit :=
  match op with
  | Register id r => register id r
  | Unregister k id => unregister k id
  | Cleanup => cleanup
  end.

(** A sequence of calls; a call that throws does not stop its caller
    from making the next one. *)
Fixpoint run (ops : list Op) (l : Ledger) : Ledger :=
  match ops with
  | [] => l
  | op :: ops' => run ops' (step op l).1
  end.

(** What is registered under an identifier in the map of a kind. *)
Definition entry (k : Kind) (id : string) (l : Ledger) : option Resource :=
  match k with
  | KProcess => RProcess <$> processes l !! id
  | KTimer => RTimer <$> timers l !! id
  | KConnection => RConnection <$> connections l !! id
  | KFileHandle => RFileHandle <$> fileHandles l !! id
  end.

(** A resource its unregister method gets past: a process that is
    already killed or whose [kill] returns, any timer, a truthy
    connection or file handle. *)
Definition releasable (r : Resource) : Prop :=
  match r with
  | RProcess p => killed p = true \/ kill p = Succeeds
  | RTimer _ => True
  | RConnection c | RFileHandle c => truthy c = true
  end.

(** [withResource], lines 265-306; [fn] may itself use the manager. *)
Definition withResource {V} (id : string) (r : Resource) (fn : M Ledger V)
  : M Ledger V :=
  register id r ;;;
  finally fn (unregister (kind_of r) id).

(** Every kind stays within its cap. *)
Definition bounded (l : Ledger) : Prop :=
  forall k, (count k l <= cap k)%nat.

(** The error a register call throws at the cap. *)
Definition cap_error (k : Kind) : JsError :=
  mkError PlainError ("Maximum number of " +:+ plural k +:+ " reached").

(** Ten processes under the ids p0 .. p9. *)
Definition ten_processes : list Op :=
  (fun i : nat => Register ("p" +:+ pretty i) (RProcess (mkProcess false Succeeds)))
    <$> seq 0 10.

End Ledger.

(** *** utils/resource-manager.ts: [ConnectionPool] *)

Module Pool.
Import Errors StateErr Ledger.

(** The pool's fields.  The pooled [T] is an [any]-typed handle; the two
    sizes are counts. *)
Record Pool : Type := mkPool {
  available : list Handle;
  inUse : gmap string Handle;
  minSize : nat;
  maxSize : nat
}.

(** [options.size || d]: an absent size and the size 0 both give [d]. *)
Definition or_default (d : nat) (o : option nat) : nat :=
  match o with
  | Some (S n) => S n
  | _ => d
  end.

(** The constructor, lines 321-334, up to the point where it starts
    [initialize] without waiting for it. *)
Definition construct (minSize maxSize : option nat) : Pool :=
  {| available := []; inUse := ∅;
     minSize := or_default 2 minSize; maxSize := or_default 10 maxSize |}.

(** A pool together with the [resourceManager] singleton it reports to. *)
Record World : Type := mkWorld { pool : Pool; ledger : Ledger }.

Definition set_available (f : list Handle -> list Handle) (w : World) : World :=
  {| pool := {| available := f (available (pool w)); inUse := inUse (pool w);
                minSize := minSize (pool w); maxSize := maxSize (pool w) |};
     ledger := ledger w |}.

Definition set_inUse (f : gmap string Handle -> gmap string Handle)
    (w : World) : World :=
  {| pool := {| available := available (pool w); inUse := f (inUse (pool w));
                minSize := minSize (pool w); maxSize := maxSize (pool w) |};
     ledger := ledger w |}.

(** A call on the [resourceManager] made from the pool. *)
Definition on_ledger {A} (m : M Ledger A) : M World A :=
  fun w =>
    let '(l', r) := m (ledger w) in
    ({| pool := pool w; ledger := l' |}, r).

(** How an awaited [createFn()] or [destroyFn(conn)] settles. *)
Definition settle {A} (r : Result A) : M World A :=
  match r with
  | Returned a => ret a
  | Thrown e => throw e
  end.

(** The fulfilled values among the first [n] creations, in order. *)
Definition fulfilled (created : nat -> Result Handle) (n : nat) : list Handle :=
  omap (fun i => match created i with
                 | Returned c => Some c
                 | Thrown _ => None
                 end) (seq 0 n).

(** The completion of [initialize], lines 342-350: the values of the
    [minSize] creations that fulfilled are pushed; [created i] is how
    the i-th creation settled. *)
Definition initialize (created : nat -> Result Handle) : M World unit :=
  let* w := get in
  modify (set_available (fun a => a ++ fulfilled created (minSize (pool w)))).

(** [!connection] for a possibly undefined connection. *)
Definition missing (c : option Handle) : bool :=
  match c with
  | Some h => negb (truthy h)
  | None => true
  end.

(** How one pass through the body of [acquire] ends when it does not
    throw: with a connection, or at the wait before the retry. *)
Inductive Attempt : Set :=
| Acquired (id : string) (connection : Handle)
| Retry.

(** Lines 374-377: the connection is recorded as in use, reported to
    the [resourceManager] (which throws at its cap), and returned. *)
Definition hand_out (id : string) (c : Handle) : M World Attempt :=
  modify (set_inUse (insert id c)) ;;;
  on_ledger (registerConnection id c) ;;;
  ret (Acquired id c).

(** One pass through lines 357-377, up to the return or up to the
    recursive call of line 371, for a pass during which nothing else
    runs on the pool: the part before the [await] of line 365 and the
    part after it are taken in one step ([acquire_called] and
    [acquire_created] below are the two parts).  [id] is the identifier
    drawn at line 358 and [created] is how [createConnection()] settles
    if it is called. *)
Definition acquire_once (id : string) (created : Result Handle)
  : M World Attempt :=
  let* w := get in
  let popped := last (available (pool w)) in
  modify (set_available (@removelast Handle)) ;;;
  let* connection :=
    (if missing popped && (size (inUse (pool w)) <? maxSize (pool w))%nat
     then let* c := settle created in ret (Some c)
     else ret popped) in
  match connection with
  | Some c =>
      if truthy c then hand_out id c else ret Retry
  | None => ret Retry
  end.

(** [acquire] with its retries: each pass draws a fresh identifier and
    may create a connection, so a call is fed one pair per pass.  The
    answer is [None] while the call is still waiting after the passes
    supplied. *)
Fixpoint acquire (passes : list (string * Result Handle))
  : M World (option (string * Handle)) :=
  match passes with
  | [] => ret None
  | (id, created) :: rest =>
      let* a := acquire_once id created in
      match a with
      | Acquired id' c => ret (Some (id', c))
      | Retry => acquire rest
      end
  end.

(** Lines 380-396; [destroyed] is how [destroyFn(connection)] settles if
    it is called. *)
Definition release (id : string) (destroyed : Result unit) : M World unit :=
  let* w := get in
  match inUse (pool w) !! id with
  | Some c =>
      if truthy c then
        modify (set_inUse (delete id)) ;;;
        (if (length (available (pool w)) <? maxSize (pool w))%nat
         then modify (set_available (fun a => a ++ [c]))
         else settle destroyed) ;;;
        on_ledger (unregisterConnection id)
      else ret tt
  | None => ret tt
  end.

(** The invariant of the pool. *)
Definition invariant (p : Pool) : Prop :=
  (length (available p) + size (inUse p) <= maxSize p)%nat.

(** [acquire] from its call to its first [await] or to its return:
    lines 358-365 and, when the pop gave a connection, lines 374-377.
    [None] says that the call now awaits [createConnection()]. *)
Definition acquire_called (id : string) : M World (option Attempt) :=
  let* w := get in
  let popped := last (available (pool w)) in
  modify (set_available (@removelast Handle)) ;;;
  if missing popped && (size (inUse (pool w)) <? maxSize (pool w))%nat
  then ret None
  else
    match popped with
    | Some c =>
        if truthy c then (let* a := hand_out id c in ret (Some a))
        else ret (Some Retry)
    | None => ret (Some Retry)
    end.

(** [acquire] from the settlement of its [createConnection()] on, lines
    365-377, run on the pool as it is by then. *)
Definition acquire_created (id : string) (created : Result Handle)
  : M World Attempt :=
  let* c := settle created in
  if truthy c then hand_out id c else ret Retry.

(** How far a call of [release] has come when it first gives up
    control. *)
Inductive Released : Set :=
| Finished
| AwaitsDestroy
| AwaitsUnregister.

(** [release] from its call to its first [await], lines 381-394: every
    write to the pool's fields is made here. *)
Definition release_called (id : string) : M World Released :=
  let* w := get in
  match inUse (pool w) !! id with
  | Some c =>
      if truthy c then
        modify (set_inUse (delete id)) ;;;
        (if (length (available (pool w)) <? maxSize (pool w))%nat
         then modify (set_available (fun a => a ++ [c])) ;;; ret AwaitsUnregister
         else ret AwaitsDestroy)
      else ret Finished
  | None => ret Finished
  end.

(** A pool in use by calls that overlap: the pool and the ledger, and
    what the unfinished calls wait for. *)
Record Running : Type := mkRunning {
  world : World;
  (** [initialize] awaits its creations (line 342) *)
  warming : bool;
  (** the [acquire] calls that await [createConnection()] (line 365),
      by the identifier they drew *)
  creating : list string;
  (** the number of [acquire] calls that await the timer of line 370 *)
  sleeping : nat;
  (** the [release] calls that await [destroyFn] (line 391) *)
  destroying : list string;
  (** the [release] calls that await [unregisterConnection] (line 394) *)
  unregistering : list string
}.

(** [new ConnectionPool(options)]: the constructor has started
    [initialize], which has called [createConnection()] [minSize] times
    and awaits the outcome. *)
Definition started (minSize maxSize : option nat) (l : Ledger) : Running :=
  {| world := mkWorld (construct minSize maxSize) l; warming := true;
     creating := []; sleeping := 0; destroying := []; unregistering := [] |}.

(** What runs without interruption: the completion of [initialize]; a
    call of [acquire] up to its first [await]; the rest of an [acquire]
    whose creation has settled; the retry of an [acquire] whose timer
    has fired (a new call, with a new identifier); a call of [release]
    up to its first [await]; and the rest of a [release] whose
    [destroyFn] or whose [unregisterConnection] has settled. *)
Inductive Turn : Type :=
| WarmedUp (created : nat -> Result Handle)
| AcquireCalled (id : string)
| Created (id : string) (created : Result Handle)
| Woken (id : string)
| ReleaseCalled (id : string)
| Destroyed (id : string) (destroyed : Result unit)
| Unregistered (id : string).

Definition with_world (w : World) (r : Running) : Running :=
  {| world := w; warming := warming r; creating := creating r;
     sleeping := sleeping r; destroying := destroying r;
     unregistering := unregistering r |}.

(** An [acquire] that ends a pass without a connection goes to sleep;
    one that returns or throws is over. *)
Definition after_attempt (a : Result Attempt) (r : Running) : Running :=
  match a with
  | Returned Retry =>
      {| world := world r; warming := warming r; creating := creating r;
         sleeping := S (sleeping r); destroying := destroying r;
         unregistering := unregistering r |}
  | _ => r
  end.

Definition after_acquire_called (id : string) (r : Running) : Running :=
  let '(w', p) := acquire_called id (world r) in
  match p with
  | Returned None =>
      {| world := w'; warming := warming r; creating := id :: creating r;
         sleeping := sleeping r; destroying := destroying r;
         unregistering := unregistering r |}
  | Returned (Some a) => after_attempt (Returned a) (with_world w' r)
  | Thrown e => with_world w' r
  end.

(** The list without the first occurrence of [id]. *)
Fixpoint without (id : string) (l : list string) : list string :=
  match l with
  | [] => []
  | x :: l' => if String.eqb x id then l' else x :: without id l'
  end.

(** One turn, [None] when it cannot happen in this state. *)
Definition turn (r : Running) (t : Turn) : option Running :=
  match t with
  | WarmedUp created =>
      if warming r then
        Some {| world := (initialize created (world r)).1; warming := false;
                creating := creating r; sleeping := sleeping r;
                destroying := destroying r; unregistering := unregistering r |}
      else None
  | AcquireCalled id => Some (after_acquire_called id r)
  | Created id created =>
      if bool_decide (id ∈ creating r) then
        let '(w', a) := acquire_created id created (world r) in
        Some (after_attempt a
                {| world := w'; warming := warming r;
                   creating := without id (creating r); sleeping := sleeping r;
                   destroying := destroying r; unregistering := unregistering r |})
      else None
  | Woken id =>
      match sleeping r with
      | O => None
      | S n =>
          Some (after_acquire_called id
                  {| world := world r; warming := warming r;
                     creating := creating r; sleeping := n;
                     destroying := destroying r;
                     unregistering := unregistering r |})
      end
  | ReleaseCalled id =>
      let '(w', p) := release_called id (world r) in
      Some match p with
           | Returned AwaitsDestroy =>
               {| world := w'; warming := warming r; creating := creating r;
                  sleeping := sleeping r; destroying := id :: destroying r;
                  unregistering := unregistering r |}
           | Returned AwaitsUnregister =>
               {| world := w'; warming := warming r; creating := creating r;
                  sleeping := sleeping r; destroying := destroying r;
                  unregistering := id :: unregistering r |}
           | _ => with_world w' r
           end
  | Destroyed id destroyed =>
      if bool_decide (id ∈ destroying r) then
        Some match destroyed with
             | Returned _ =>
                 {| world := world r; warming := warming r;
                    creating := creating r; sleeping := sleeping r;
                    destroying := without id (destroying r);
                    unregistering := id :: unregistering r |}
             | Thrown _ =>
                 {| world := world r; warming := warming r;
                    creating := creating r; sleeping := sleeping r;
                    destroying := without id (destroying r);
                    unregistering := unregistering r |}
             end
      else None
  | Unregistered id =>
      if bool_decide (id ∈ unregistering r) then
        Some {| world := (on_ledger (unregisterConnection id) (world r)).1;
                warming := warming r; creating := creating r;
                sleeping := sleeping r; destroying := destroying r;
                unregistering := without id (unregistering r) |}
      else None
  end.

(** A schedule of turns, [None] when it asks for a turn that cannot
    happen. *)
Fixpoint interleave (r : Running) (ts : list Turn) : option Running :=
  match ts with
  | [] => Some r
  | t :: ts' =>
      match turn r t with
      | Some r' => interleave r' ts'
      | None => None
      end
  end.

(** The three numbers the invariant relates. *)
Record Census : Set := mkCensus {
  in_available : nat;
  in_use : nat;
  at_most : nat
}.

Definition census (r : Running) : Census :=
  {| in_available := length (available (pool (world r)));
     in_use := size (inUse (pool (world r)));
     at_most := maxSize (pool (world r)) |}.

(** The invariant, decided. *)
Definition within (c : Census) : bool :=
  (in_available c + in_use c <=? at_most c)%nat.

(** A call made on the pool by its users. *)
Inductive Step : Type :=
| Acquire (passes : list (string * Result Handle))
| Release (id : string) (destroyed : Result unit).

Definition step (st : Step) (w : World) : World :=
  match st with
  | Acquire passes => (acquire passes w).1
  | Release id destroyed => (release id destroyed w).1
  end.

(** A sequence of calls, each run to settlement before the next. *)
Definition run (steps : list Step) (w : World) : World :=
  foldl (fun w st => step st w) w steps.

(** A new pool whose warm-up has completed before its first use.  The
    constructor does not wait for the warm-up, so this is the state of
    a pool only if its user lets the warm-up finish first. *)
Definition warmed_up (minSize maxSize : option nat)
    (created : nat -> Result Handle) (l : Ledger) : World :=
  (initialize created (mkWorld (construct minSize maxSize) l)).1.

(** A connection object with a [close] method, as the mock pool of
    tools/database.ts creates them. *)
Definition mock_connection : Handle :=
  {| truthy := true; close := Some Succeeds; end_ := None; disconnect := None |}.

(** A ledger filled to its connection cap. *)
Definition full_of_connections : Ledger :=
  set_connections
    (fun _ => list_to_map
                ((fun i : nat => ("c" +:+ pretty i, mock_connection)) <$> seq 0 100))
    Ledger.empty.

End Pool.

(** *** config/security.ts: [RateLimiter] *)

Module Limiter.

Record RateLimiter : Type := mkLimiter {
  requests : gmap string (list Z);
  windowMs : Z;
  maxRequests : Z
}.

(** [new RateLimiter(windowMs, maxRequests)], lines 172-178, with the
    parameter defaults 60000 and 100. *)
Definition create (w m : option Z) : RateLimiter :=
  {| requests := ∅; windowMs := default 60000 w; maxRequests := default 100 m |}.

(** [requests.filter(time => now - time < this.windowMs)]. *)
Definition recent (l : RateLimiter) (now : Z) (stamps : list Z) : list Z :=
  List.filter (fun time => now - time <? windowMs l) stamps.

Definition set_requests (l : RateLimiter) (m : gmap string (list Z))
  : RateLimiter :=
  {| requests := m; windowMs := windowMs l; maxRequests := maxRequests l |}.

(** Lines 183-200; [now] is the reading of [Date.now()]. *)
Definition isAllowed (now : Z) (identifier : string) (l : RateLimiter)
  : bool * RateLimiter :=
  let stamps := default [] (requests l !! identifier) in
  let recentRequests := recent l now stamps in
  if Z.of_nat (length recentRequests) >=? maxRequests l then (false, l)
  else (true,
        set_requests l (<[identifier := recentRequests ++ [now]]> (requests l))).

(** The periodic sweep, lines 205-219. *)
Definition cleanup (now : Z) (l : RateLimiter) : RateLimiter :=
  set_requests l
    (omap (fun stamps =>
             match recent l now stamps with
             | [] => None
             | r => Some r
             end) (requests l)).

(** What happens to a limiter: a call of [isAllowed], or the periodic
    sweep, each with its reading of the clock. *)
Inductive Event : Set :=
| Ask (now : Z) (identifier : string)
| Sweep (now : Z).

Definition time_of (ev : Event) : Z :=
  match ev with
  | Ask now _ => now
  | Sweep now => now
  end.

(** The events in order, with the accepted calls logged oldest first. *)
Fixpoint run (evs : list Event) (l : RateLimiter) (log : list (Z * string))
  : RateLimiter * list (Z * string) :=
  match evs with
  | [] => (l, log)
  | Ask now id :: rest =>
      let '(ok, l') := isAllowed now id l in
      run rest l' (if ok then log ++ [(now, id)] else log)
  | Sweep now :: rest => run rest (cleanup now l) log
  end.

(** The times at which calls for an identifier were accepted. *)
Definition stamps_of (id : string) (log : list (Z * string)) : list Z :=
  omap (fun p : Z * string => if decide (p.2 = id) then Some p.1 else None) log.

(** A clock that never runs backwards: starting from [t], each event
    carries a reading at least as large as the one before. *)
Fixpoint nondecreasing (t : Z) (evs : list Event) : Prop :=
  match evs with
  | [] => True
  | ev :: rest => t <= time_of ev /\ nondecreasing (time_of ev) rest
  end.

(** The reading of the last event, or [t] when there is none. *)
Fixpoint end_time (t : Z) (evs : list Event) : Z :=
  match evs with
  | [] => t
  | ev :: rest => end_time (time_of ev) rest
  end.

(** What is stored agrees, for every window that ends at [t] or later,
    with the calls accepted so far. *)
Definition tracks (l : RateLimiter) (log : list (Z * string)) (t : Z) : Prop :=
  forall id now, t <= now ->
    recent l now (default [] (requests l !! id)) = recent l now (stamps_of id log).

(** No identifier holds more stamps than the quota. *)
Definition within_quota (l : RateLimiter) : Prop :=
  forall id stamps, requests l !! id = Some stamps ->
    Z.of_nat (length stamps) <= Z.max 0 (maxRequests l).

End Limiter.

(** *** config/security.ts: [SecurityManager] *)

(** A string is the sequence of its code units. *)

Module Security.
Import Errors.

(** [s.replace(/[class]/g, '')]: every character of the class is
    dropped. *)
Fixpoint strip (p : Ascii.ascii -> bool) (s : string) : string :=
  match s with
  | EmptyString => EmptyString
  | String c rest => if p c then strip p rest else String c (strip p rest)
  end.

(** [s.replace(/c/g, d)] for single characters. *)
Fixpoint replace_char (c d : Ascii.ascii) (s : string) : string :=
  match s with
  | EmptyString => EmptyString
  | String x rest =>
      String (if Ascii.eqb x c then d else x) (replace_char c d rest)
  end.

(** [s.replace(/\.\./g, '')]: matches are found left to right and do
    not overlap. *)
Fixpoint remove_dotdot (s : string) : string :=
  match s with
  | String c rest =>
      match rest with
      | String d rest' =>
          if Ascii.eqb c "."%char && Ascii.eqb d "."%char
          then remove_dotdot rest'
          else String c (remove_dotdot rest)
      | EmptyString => String c EmptyString
      end
  | EmptyString => EmptyString
  end.


Definition MAX_PATH_LENGTH : nat := 1024.

(** Lines 19-44, for an argument that is a string. *)
Definition sanitizePath (inputPath : string) : Result string :=
  if String.eqb inputPath "" then Thrown (mkError PlainError "Invalid path input")
  else
    let cleanPath := strip (Ascii.eqb "000"%char) inputPath in
    let cleanPath := replace_char "\"%char "/"%char cleanPath in
    let cleanPath := remove_dotdot cleanPath in
    if String.prefix "/" cleanPath && negb (String.prefix "/Users" cleanPath)
    then Thrown (mkError PlainError
                   "Absolute paths outside user directory not allowed")
    else if (MAX_PATH_LENGTH <? String.length cleanPath)%nat
    then Thrown (mkError PlainError "Path too long")
    else Returned cleanPath.


(** Every character of a string satisfies [p]. *)
Fixpoint all_chars (p : Ascii.ascii -> bool) (s : string) : bool :=
  match s with
  | EmptyString => true
  | String c rest => p c && all_chars p rest
  end.

(** The characters [sanitizePath] leaves in no path. *)
Definition path_char (c : Ascii.ascii) : bool :=
  negb (Ascii.eqb c "000"%char) && negb (Ascii.eqb c "\"%char).

End Security.

(** *** monitoring/metrics.ts: [MetricsCollector] *)

Module Metrics.

(** JavaScript numbers are IEEE 754 doubles. *)
Definition number : Set := float.

(** [x || 0] for a possibly absent number: 0, -0 and NaN are falsy. *)
Definition or_zero (x : option number) : number :=
  match x with
  | Some v => if PrimFloat.eqb v 0%float || PrimFloat.is_nan v then 0%float else v
  | None => 0%float
  end.

(** [Math.min(a, b)] and [Math.max(a, b)]. *)
Definition Math_min (a b : number) : number :=
  if PrimFloat.is_nan a || PrimFloat.is_nan b then PrimFloat.nan
  else if PrimFloat.ltb a b then a
  else if PrimFloat.ltb b a then b
  else if PrimFloat.get_sign a then a else b.

Definition Math_max (a b : number) : number :=
  if PrimFloat.is_nan a || PrimFloat.is_nan b then PrimFloat.nan
  else if PrimFloat.ltb a b then b
  else if PrimFloat.ltb b a then a
  else if PrimFloat.get_sign a then b else a.

(** An entry of [operationStats], lines 20-26. *)
Record Stat : Set := mkStat {
  count : number;
  totalTime : number;
  minTime : number;
  maxTime : number;
  errors : number
}.

(** What [getOperationStats] returns for a known key, lines 147-151. *)
Record StatView : Set := mkStatView {
  stats : Stat;
  avgTime : number;
  errorRate : number
}.

(** The metric stores, lines 14-26 (the [timers] map is never written). *)
Record Collector : Type := mkCollector {
  counters : gmap string number;
  gauges : gmap string number;
  histograms : gmap string (list number);
  operationStats : gmap string Stat
}.

Definition empty : Collector :=
  {| counters := ∅; gauges := ∅; histograms := ∅; operationStats := ∅ |}.

Section WithEnvironment.
Context {Value : Type}.
(** How a tag value prints inside a template literal. *)
Variable render : Value -> string.
(** [a.localeCompare(b)]: negative, zero or positive. *)
Variable localeCompare : string -> string -> Z.

(** A tag record, as the list [Object.entries] gives for it. *)
Definition Entries : Type := list (string * Value).

(** [entries.sort(([a], [b]) => a.localeCompare(b))].  The sort is
    stable: an entry moves behind another only when the comparator
    is positive on them.  Inserting from the right end gives that
    arrangement. *)
Fixpoint insert_entry (x : string * Value) (l : Entries) : Entries :=
  match l with
  | [] => [x]
  | y :: l' =>
      if 0 <? localeCompare x.1 y.1 then y :: insert_entry x l' else x :: l
  end.

Definition sort_entries (l : Entries) : Entries := foldr insert_entry [] l.

(** Lines 286-297. *)
Definition getKey (name : string) (tags : option Entries) : string :=
  match tags with
  | None | Some [] => name
  | Some entries =>
      let tagStr :=
        String.concat ","
          ((fun '(k, v) => k +:+ ":" +:+ render v) <$> sort_entries entries) in
      name +:+ "{" +:+ tagStr +:+ "}"
  end.

(** Lines 67-71; [value] defaults to 1. *)
Definition increment (name : string) (value : option number)
    (tags : option Entries) (c : Collector) : Collector :=
  let key := getKey name tags in
  let current := or_zero (counters c !! key) in
  {| counters := <[key := PrimFloat.add current (default 1%float value)]> (counters c);
     gauges := gauges c; histograms := histograms c;
     operationStats := operationStats c |}.

(** Lines 76-79. *)
Definition gauge (name : string) (value : number)
    (tags : option Entries) (c : Collector) : Collector :=
  let key := getKey name tags in
  {| counters := counters c;
     gauges := <[key := value]> (gauges c);
     histograms := histograms c; operationStats := operationStats c |}.

(** Lines 84-95: the last 1000 values are kept. *)
Definition histogram (name : string) (value : number)
    (tags : option Entries) (c : Collector) : Collector :=
  let key := getKey name tags in
  let values := default [] (histograms c !! key) ++ [value] in
  let values := if (1000 <? length values)%nat then tail values else values in
  {| counters := counters c; gauges := gauges c;
     histograms := <[key := values]> (histograms c);
     operationStats := operationStats c |}.

(** Lines 114-136; [error] defaults to false. *)
Definition recordOperation (name : string) (duration : number)
    (error : option bool) (tags : option Entries) (c : Collector) : Collector :=
  let key := getKey name tags in
  let st := default {| count := 0; totalTime := 0; minTime := PrimFloat.infinity;
                       maxTime := 0; errors := 0 |}%float
                    (operationStats c !! key) in
  let st' :=
    {| count := PrimFloat.add (count st) 1;
       totalTime := PrimFloat.add (totalTime st) duration;
       minTime := Math_min (minTime st) duration;
       maxTime := Math_max (maxTime st) duration;
       errors := if default false error
                 then PrimFloat.add (errors st) 1 else errors st |} in
  {| counters := counters c; gauges := gauges c; histograms := histograms c;
     operationStats := <[key := st']> (operationStats c) |}.

(** Lines 141-152; [None] is [null]. *)
Definition getOperationStats (name : string) (tags : option Entries)
    (c : Collector) : option StatView :=
  let key := getKey name tags in
  match operationStats c !! key with
  | None => None
  | Some st =>
      Some {| stats := st;
              avgTime := PrimFloat.div (totalTime st) (count st);
              errorRate := PrimFloat.div (errors st) (count st) |}
  end.

(** The order the comparator puts on entries. *)
Definition entry_le (x y : string * Value) : Prop :=
  localeCompare x.1 y.1 <= 0.

(** The function [startTimer] returns, lines 104-108, called when the
    measured [duration] has passed. *)
Definition stopTimer (name : string) (duration : number)
    (tags : option Entries) (c : Collector) : Collector :=
  histogram (name +:+ ".duration") duration tags
    (recordOperation name duration (Some false) tags c).

(** Lines 322-328. *)
Definition reset (c : Collector) : Collector := empty.

(** A call made on the collector. *)
Inductive Op : Type :=
| Increment (name : string) (value : option number) (tags : option Entries)
| Gauge (name : string) (value : number) (tags : option Entries)
| Histogram (name : string) (value : number) (tags : option Entries)
| RecordOperation (name : string) (duration : number) (error : option bool)
    (tags : option Entries)
| StopTimer (name : string) (duration : number) (tags : option Entries)
| Reset.

Definition step (c : Collector) (op : Op) : Collector :=
  match op with
  | Increment name value tags => increment name value tags c
  | Gauge name value tags => gauge name value tags c
  | Histogram name value tags => histogram name value tags c
  | RecordOperation name d e tags => recordOperation name d e tags c
  | StopTimer name d tags => stopTimer name d tags c
  | Reset => reset c
  end.

Definition run (ops : list Op) (c : Collector) : Collector := foldl step c ops.

(** Every histogram holds between 1 and 1000 values. *)
Definition histograms_bounded (c : Collector) : Prop :=
  forall key values, histograms c !! key = Some values ->
    (1 <= length values <= 1000)%nat.

End WithEnvironment.

(** A comparator for examples: names ordered by their encoding. *)
Definition by_encoding (a b : string) : Z :=
  Z.pos (encode a) - Z.pos (encode b).

(** Two spellings of one name, in UTF-8: U+00E9, the letter e with
    acute accent, and U+0065 U+0301, the letter e followed by the
    combining acute accent.  They are different strings, and different
    property names, that are canonically equivalent. *)
Definition e_acute : string := String "195" (String "169" "").
Definition e_combining_acute : string :=
  String "101" (String "204" (String "129" "")).

(** A comparator that, as [localeCompare] is required to (ECMA-262,
    String.prototype.localeCompare), returns 0 on the two canonically
    equivalent spellings; it orders names by the encoding of their
    composed spelling. *)
Definition composed (s : string) : string :=
  if String.eqb s e_combining_acute then e_acute else s.

Definition canonical_compare (a b : string) : Z :=
  by_encoding (composed a) (composed b).

End Metrics.

(** *** tools/base-tool.ts: [BaseTool] *)

Module Tool.
Import Errors StateErr.

(** [c.toLowerCase()] on one code unit below 256: the letters A-Z and
    the capital letters of Latin-1 (all of C0-DE but the multiplication
    sign D7) move up by 32. *)
Definition lower_char (c : Ascii.ascii) : Ascii.ascii :=
  let n := Ascii.N_of_ascii c in
  if ((65 <=? n) && (n <=? 90)
      || (192 <=? n) && (n <=? 222) && negb (n =? 215))%N
  then Ascii.ascii_of_N (n + 32)
  else c.

Fixpoint toLowerCase (s : string) : string :=
  match s with
  | EmptyString => EmptyString
  | String c rest => String (lower_char c) (toLowerCase rest)
  end.

(** Lines 203-207. *)
Definition sensitiveFields : list string :=
  ["password"; "token"; "secret"; "key"; "authorization";
   "api_key"; "apiKey"; "access_token"; "accessToken";
   "connectionString"; "database_url"; "databaseUrl"].

Section WithValues.
Context {Value : Type}.
(** The string ['[REDACTED]'] as a value. *)
Variable REDACTED : Value.
(** What a plain object inherits from [Object.prototype]. *)
Variable plain : string -> bool.

(** An object as the list of its own enumerable properties, in the
    order of [Object.keys]. *)
Definition Obj : Type := list (string * Value).

(** An argument of type [any]: an object, or something [!input ||
    typeof input !== 'object'] is true of. *)
Inductive Input : Type :=
| NotAnObject (v : Value)
| AnObject (own : Obj) (inherited : string -> bool).

Definition keys (o : Obj) : list string := o.*1.

(** [key in o] for an own property. *)
Definition has_own (o : Obj) (key : string) : bool :=
  existsb (String.eqb key) (keys o).

(** [o[key] = v] for a property the object has. *)
Definition assign (o : Obj) (key : string) (v : Value) : Obj :=
  (fun '(k, x) => (k, if String.eqb k key then v else x)) <$> o.

(** One round of the loop of lines 209-221, for one sensitive field.
    None of the fields is a property of [Object.prototype], so [field
    in sanitized] asks for an own property. *)
Definition redact_field (o : Obj) (field : string) : Obj :=
  let o1 := if has_own o field then assign o field REDACTED else o in
  let fieldLower := toLowerCase field in
  foldl (fun acc key =>
           if Retry.includes (toLowerCase key) fieldLower
           then assign acc key REDACTED else acc)
        o1 (keys o1).

(** Lines 197-224.  The spread of line 202 copies the own properties
    into a new plain object. *)
Definition sanitizeForLogging (input : Input) : Input :=
  match input with
  | NotAnObject v => NotAnObject v
  | AnObject own inherited =>
      AnObject (foldl redact_field own sensitiveFields) plain
  end.

(** A key the loop redacts: in lower case it contains one of the
    sensitive fields in lower case. *)
Definition sensitive (key : string) : bool :=
  existsb (fun field => Retry.includes (toLowerCase key) (toLowerCase field))
          sensitiveFields.

(** The object with the values of the keys [p] holds of replaced. *)
Definition redact_where (p : string -> bool) (o : Obj) : Obj :=
  (fun '(k, x) => (k, if p k then REDACTED else x)) <$> o.

(** [field in input], own or inherited. *)
Definition has (own : Obj) (inherited : string -> bool) (field : string) : bool :=
  has_own own field || inherited field.

(** The loop of lines 136-140 over [inputSchema.required]. *)
Fixpoint check_required (own : Obj) (inherited : string -> bool)
    (required : list string) : option JsError :=
  match required with
  | [] => None
  | field :: rest =>
      if has own inherited field then check_required own inherited rest
      else Some (mkError ValidationError ("Missing required field: " +:+ field))
  end.

(** [validateInput], lines 121-156, for a tool without a Zod schema;
    [required] is [inputSchema.required] when it is truthy. *)
Definition validateInput (required : option (list string)) (input : Input)
  : Result Input :=
  match input with
  | NotAnObject _ => Thrown (mkError ValidationError "Input must be an object")
  | AnObject own inherited =>
      match check_required own inherited (default [] required) with
      | Some e => Thrown e
      | None => Returned input
      end
  end.

End WithValues.

(** What [execute] works on: the tool's own limiter and the resource
    manager singleton. *)
Record ToolState : Type := mkToolState {
  limiter : Limiter.RateLimiter;
  manager : Ledger.Ledger
}.

Record Tool : Set := mkTool { name : string; timeout : Z }.

(** The catch block of lines 87-102: the message gets the tool's name
    in front. *)
Definition with_context (t : Tool) (e : JsError) : JsError :=
  mkError (cls e) ("[" +:+ name t +:+ "] " +:+ message e).

(** The identifier of line 184. *)
Definition timer_id (t : Tool) (now : Z) : string :=
  "timeout_" +:+ name t +:+ "_" +:+ pretty now.

(** What one call of [execute] meets: the clock read by the limiter and
    the clock read for the timer identifier, how [validateInput]
    settles, the timer [setTimeout] returns, and how the race between
    [executeInternal] and the timeout promise settles. *)
Record Call (I O : Type) : Type := mkCall {
  limiter_now : Z;
  validation : Result I;
  timer_now : Z;
  timer : Ledger.Timer;
  race : Breaker.Race O
}.
Arguments mkCall {I O} _ _ _ _ _.
Arguments limiter_now {I O} _.
Arguments validation {I O} _.
Arguments timer_now {I O} _.
Arguments timer {I O} _.
Arguments race {I O} _.

(** [executeWithTimeout], lines 174-192.  The executor of the timeout
    promise registers the timer; if that throws, the promise is rejected
    with what was thrown rather than, later, with a [TimeoutError].
    [executeInternal] is started either way. *)
Definition executeWithTimeout {I O} (t : Tool) (c : Call I O)
  : M Ledger.Ledger O :=
  fun l =>
    let '(l', registered) := Ledger.registerTimer (timer_id t (timer_now c)) (timer c) l in
    (l', match race c with
         | Breaker.Fulfils v => Returned v
         | Breaker.Rejects e => Thrown e
         | Breaker.TimesOut =>
             match registered with
             | Returned _ => Thrown (newTimeoutError (name t) (timeout t))
             | Thrown e => Thrown e
             end
         end).

(** [execute], lines 43-111, with the [validateOutput] of the base
    class; the report says whether [executeInternal] was started. *)
Definition execute {I O} (t : Tool) (c : Call I O) (st : ToolState)
  : ToolState * Breaker.Report O :=
  let '(ok, lim) := Limiter.isAllowed (limiter_now c) (name t) (limiter st) in
  if negb ok then
    (mkToolState lim (manager st),
     Breaker.mkReport
       (Thrown (with_context t
                  (mkError PlainError ("Rate limit exceeded for tool: " +:+ name t))))
       false)
  else
    match validation c with
    | Thrown e =>
        (mkToolState lim (manager st),
         Breaker.mkReport (Thrown (with_context t e)) false)
    | Returned _ =>
        let '(l', r) := executeWithTimeout t c (manager st) in
        (mkToolState lim l',
         Breaker.mkReport
           (match r with
            | Returned v => Returned v
            | Thrown e => Thrown (with_context t e)
            end) true)
    end.


End Tool.

(** *** monitoring/auto-recovery.ts: [AutoRecoverySystem] *)

Module Recovery.
Import Ledger.

Inductive Status : Set := healthy | warning | critical.

Record Health : Set := mkHealth {
  status : Status;
  message : option string
}.

(** The issues collected at lines 224-226. *)
Definition issues (u : Usage) : list string :=
  (if (8 <? u_processes u)%nat then ["Too many processes"] else [])
  ++ (if (80 <? u_connections u)%nat then ["Too many connections"] else [])
  ++ (if (40 <? u_fileHandles u)%nat then ["Too many file handles"] else []).

(** [checkResourceHealth], lines 220-235. *)
Definition checkResourceHealth (u : Usage) : Health :=
  let found := issues u in
  if (2 <? length found)%nat
  then {| status := critical; message := Some (String.concat ", " found) |}
  else if (0 <? length found)%nat
  then {| status := warning; message := Some (String.concat ", " found) |}
  else {| status := healthy; message := None |}.

(** The three fields of lines 15-17. *)
Record RecoveryState : Set := mkRecovery {
  isRecovering : bool;
  lastRecoveryTime : Z;
  recoveryAttempts : Z
}.

Definition initial : RecoveryState :=
  {| isRecovering := false; lastRecoveryTime := 0; recoveryAttempts := 0 |}.

Definition recoveryBackoff : Z := 30000.
Definition maxRecoveryAttempts : Z := 3.

(** The events [attemptRecovery] emits itself. *)
Inductive Signal : Set :=
| RecoveryStart (attempt : Z)
| RecoverySuccess
| RecoveryFailed
| ShutdownRequested.

#[global] Instance Signal_eq_dec : EqDecision Signal.
Proof. solve_decision. Defined.

(** [attemptRecovery], lines 437-489, run to settlement; [now] is the
    clock at line 444 and [recovered] says whether the cleanup went
    through and the health check that follows found the system
    healthy. *)
Definition attemptRecovery (now : Z) (recovered : bool) (st : RecoveryState)
  : RecoveryState * list Signal :=
  if isRecovering st then (st, [])
  else if now - lastRecoveryTime st <? recoveryBackoff then (st, [])
  else
    let attempt := recoveryAttempts st + 1 in
    if recovered then
      ({| isRecovering := false; lastRecoveryTime := now; recoveryAttempts := 0 |},
       [RecoveryStart attempt; RecoverySuccess])
    else
      ({| isRecovering := false; lastRecoveryTime := now;
          recoveryAttempts := attempt |},
       [RecoveryStart attempt; RecoveryFailed]
         ++ (if attempt >=? maxRecoveryAttempts then [ShutdownRequested] else [])).

(** How a call of [attemptRecovery] went. *)
Inductive Outcome : Set := Skipped | Succeeded | Failed.

Definition outcome (signals : list Signal) : Outcome :=
  match signals with
  | [] => Skipped
  | _ => if bool_decide (RecoverySuccess ∈ signals) then Succeeded else Failed
  end.

(** A sequence of calls, each settled before the next; outcomes and
    signals are logged most recent first. *)
Fixpoint run (calls : list (Z * bool)) (st : RecoveryState)
    (log : list (list Signal)) : RecoveryState * list (list Signal) :=
  match calls with
  | [] => (st, log)
  | (now, recovered) :: rest =>
      let '(st', signals) := attemptRecovery now recovered st in
      run rest st' (signals :: log)
  end.

(** The failed recoveries since the last successful one, skipped calls
    not counting. *)
Fixpoint failed_in_a_row (log : list (list Signal)) : Z :=
  match log with
  | [] => 0
  | signals :: older =>
      match outcome signals with
      | Skipped => failed_in_a_row older
      | Succeeded => 0
      | Failed => 1 + failed_in_a_row older
      end
  end.

End Recovery.

(** ** Part II: properties *)

(** *** Sizes of maps and lists *)

Module SizeFacts.

Lemma size_insert_le {A} (m : gmap string A) i x :
  (size (<[i:=x]> m) <= S (size m))%nat.
Proof. rewrite map_size_insert. destruct (m !! i); simpl; lia. Qed.

Lemma size_delete_le {A} (m : gmap string A) i :
  (size (delete i m) <= size m)%nat.
Proof. rewrite map_size_delete. destruct (m !! i); simpl; lia. Qed.

Lemma omap_length_le {A B} (f : A -> option B) (xs : list A) :
  (length (omap f xs) <= length xs)%nat.
Proof.
  induction xs as [|x xs IH]; csimpl; [lia|].
  destruct (f x); simpl; lia.
Qed.

End SizeFacts.

Module BreakerFacts.
Import Errors Breaker.

Lemma maybe_reset_not_open_id o now b :
  state b <> open -> maybe_reset o now b = b.
Proof.
  intros H. unfold maybe_reset.
  rewrite (bool_decide_eq_false_2 _ H). reflexivity.
Qed.

Lemma maybe_reset_state o now b :
  state (maybe_reset o now b) = open \/ state (maybe_reset o now b) = half_open
  \/ maybe_reset o now b = b.
Proof.
  unfold maybe_reset.
  destruct (bool_decide (state b = open) && _); simpl; auto.
Qed.

Lemma streak_nonneg {V} (log : list (Report V)) : 0 <= streak log.
Proof. induction log as [|r log IH]; simpl; [lia|]. destruct (failed r); lia. Qed.

(** A call that finds the breaker open after the reset check is
    turned away without running the wrapped function, and changes
    nothing. *)
Lemma call_open_rejects {V} o b (c : Call V) :
  state (maybe_reset o (entry_now c) b) = open ->
  call o b c =
    (b, mkReport (Thrown (mkError PlainError "Circuit breaker is open")) false).
Proof.
  intros H. unfold call. rewrite (bool_decide_eq_true_2 _ H).
  f_equal. unfold maybe_reset in *.
  destruct (bool_decide (state b = open) && _); [discriminate H | reflexivity].
Qed.

(** The trial call of a half-open breaker that succeeds closes it. *)
Lemma half_open_success_closes {V} o b (c : Call V) v :
  state b = half_open -> race c = Fulfils v ->
  call o b c =
    ({| failures := 0; lastFailureTime := lastFailureTime b; state := closed |},
     mkReport (Returned v) true).
Proof.
  intros Hs Hr. unfold call.
  rewrite maybe_reset_not_open_id by (rewrite Hs; discriminate).
  rewrite bool_decide_eq_false_2 by (rewrite Hs; discriminate).
  rewrite Hr. unfold on_success. rewrite Hs. reflexivity.
Qed.

(** The trial call of a half-open breaker that fails opens it only when
    the incremented counter reaches the threshold. *)
Lemma half_open_failure_state {V} o b (c : Call V) :
  state b = half_open -> (forall v, race c <> Fulfils v) ->
  state (call o b c).1 =
    if bool_decide (failures b + 1 >= threshold o) then open else half_open.
Proof.
  intros Hs Hr. unfold call.
  rewrite maybe_reset_not_open_id by (rewrite Hs; discriminate).
  rewrite bool_decide_eq_false_2 by (rewrite Hs; discriminate).
  destruct (race c) as [v| e |]; [by destruct (Hr v) | |];
    simpl; rewrite Hs; reflexivity.
Qed.

Lemma call_counted {V} o b (c : Call V) log :
  counted b log -> counted (call o b c).1 ((call o b c).2 :: log).
Proof.
  unfold counted. intros Inv.
  destruct (decide (state (maybe_reset o (entry_now c) b) = open)) as [Ho|Hn].
  - rewrite (call_open_rejects _ _ _ Ho). simpl. intros Hb.
    unfold maybe_reset in Ho.
    destruct (bool_decide (state b = open) && _); [discriminate Ho | contradiction].
  - unfold call. rewrite (bool_decide_eq_false_2 _ Hn).
    pose proof (streak_nonneg log) as Hlog.
    assert (Hf : state (maybe_reset o (entry_now c) b) <> open ->
                 failures (maybe_reset o (entry_now c) b) <= streak log).
    { unfold maybe_reset.
      destruct (bool_decide (state b = open) && _); simpl; [lia | exact Inv]. }
    specialize (Hf Hn).
    destruct (race c); simpl; intros _; unfold failed; simpl; lia.
Qed.

Lemma run_counted {V} o (cs : list (Call V)) : forall b log,
  counted b log -> counted (run o b log cs).1 (run o b log cs).2.
Proof.
  induction cs as [|c cs IH]; intros b log Inv; simpl; [exact Inv|].
  pose proof (call_counted o b c log Inv) as Hc.
  destruct (call o b c) as [b' r]. apply IH. exact Hc.
Qed.

(** C1 (evaluation of the code where the claim fails).  With
    [threshold = 2] and [resetTimeout = 30000]: two failures open the
    breaker and the next call is turned away; the call at time 40000
    enters half-open and its trial fails, yet the breaker is left
    half-open with one counted failure, and the call that follows runs
    the wrapped function instead of being turned away. *)
Theorem C1_half_open_trial_failure_does_not_reopen :
  let o := {| threshold := 2; timeout := 60000; resetTimeout := 30000 |} in
  let boom := Rejects (mkError PlainError "boom") in
  let '(b3, log3) :=
    run (V := Z) o initial []
      [mkCall 0 boom 0; mkCall 1 boom 1; mkCall 2 (Fulfils 7) 2] in
  let '(b4, r4) := call o b3 (mkCall 40000 boom 40000) in
  let '(b5, r5) := call o b4 (mkCall 40001 (Fulfils 7) 40001) in
  state b3 = open /\ invoked <$> log3 = [false; true; true] /\
  invoked r4 = true /\ result r4 = Thrown (mkError PlainError "boom") /\
  state b4 = half_open /\ failures b4 = 1 /\
  invoked r5 = true /\ result r5 = Returned 7.
Proof. vm_compute. repeat split; reflexivity. Qed.

(** One call during which nothing else runs is its two parts, one
    after the other. *)
Lemma call_enter_settle {V} o b (c : Call V) :
  call o b c =
    let '(b1, admitted) := enter o (entry_now c) b in
    if admitted then settle o (race c) (catch_now c) b1
    else (b1, mkReport (Thrown (mkError PlainError "Circuit breaker is open")) false).
Proof.
  unfold call, enter, settle.
  destruct (bool_decide _); simpl; [reflexivity|].
  destruct (race c); reflexivity.
Qed.

(** What the second part of a call that returns leaves behind. *)
Lemma settle_success {V} o (v : V) now b :
  failures (settle o (Fulfils v) now b).1 = 0
  /\ lastFailureTime (settle o (Fulfils v) now b).1 = lastFailureTime b
  /\ state (settle o (Fulfils v) now b).1
     = if bool_decide (state b = open) then open else closed.
Proof. simpl. by destruct (state b). Qed.

Lemma call_success_closes {V} o b (c : Call V) v :
  result (call o b c).2 = Returned v ->
  failures (call o b c).1 = 0 /\ state (call o b c).1 = closed.
Proof.
  unfold call.
  destruct (decide (state (maybe_reset o (entry_now c) b) = open)) as [Ho|Hn].
  - rewrite (bool_decide_eq_true_2 _ Ho). simpl. discriminate.
  - rewrite (bool_decide_eq_false_2 _ Hn).
    destruct (race c); simpl; try discriminate.
    intros _. split; [reflexivity|].
    destruct (maybe_reset_state o (entry_now c) b) as [H|[H|H]].
    + contradiction.
    + rewrite H. reflexivity.
    + destruct (state (maybe_reset o (entry_now c) b)); try reflexivity.
      contradiction.
Qed.

Lemma call_opens {V} o (cs : list (Call V)) (c : Call V) :
  let b := (run o initial [] cs).1 in
  let log := (run o initial [] cs).2 in
  state b <> open ->
  state (call o b c).1 = open ->
  failed (call o b c).2 = true /\
  threshold o <= streak ((call o b c).2 :: log).
Proof.
  intros b log Hb Hopen.
  assert (Inv : counted b log).
  { apply (run_counted o cs initial []). intros _. simpl. lia. }
  specialize (Inv Hb).
  revert Hopen. unfold call.
  rewrite (maybe_reset_not_open_id _ _ _ Hb).
  rewrite (bool_decide_eq_false_2 _ Hb).
  destruct (race c); simpl.
  - destruct (state b); simpl; try discriminate. contradiction.
  - case_bool_decide; [|contradiction]. intros _.
    unfold failed. simpl. split; [reflexivity | lia].
  - case_bool_decide; [|contradiction]. intros _.
    unfold failed. simpl. split; [reflexivity | lia].
Qed.

(** The counter stays within the streak of failed executions in every
    schedule of turns. *)
Lemma turn_counted {V} o (w w' : Wrapper V) t :
  turn o w t = Some w' ->
  counted (vars w) (reports w) -> counted (vars w') (reports w').
Proof.
  unfold counted. destruct t as [now|r now]; simpl.
  - intros [= <-] Inv. unfold maybe_reset.
    destruct (bool_decide (state (vars w) = open) && _) eqn:E; simpl.
    + intros _. apply streak_nonneg.
    + destruct (bool_decide (state (vars w) = open)) eqn:E'; simpl.
      * intros H. apply bool_decide_eq_true_1 in E'. contradiction.
      * exact Inv.
  - destruct (in_flight w) as [|n]; [discriminate|].
    pose proof (streak_nonneg (reports w)) as Hlog.
    destruct r as [v|e|]; intros [= <-]; simpl; intros Inv.
    + intros _. lia.
    + case_bool_decide; [intros Ho; by destruct Ho|].
      intros Hn. specialize (Inv Hn). unfold failed. simpl. lia.
    + case_bool_decide; [intros Ho; by destruct Ho|].
      intros Hn. specialize (Inv Hn). unfold failed. simpl. lia.
Qed.

Lemma interleave_counted {V} o (ts : list (Turn V)) : forall w w',
  interleave o w ts = Some w' ->
  counted (vars w) (reports w) -> counted (vars w') (reports w').
Proof.
  induction ts as [|t ts IH]; intros w w'; simpl.
  - by intros [= <-].
  - destruct (turn o w t) as [w1|] eqn:Ht; [|discriminate].
    intros Hrun Inv. apply (IH w1 w' Hrun). by apply (turn_counted o w w1 t).
Qed.

(** The turn that opens a breaker is the settlement of a failed
    execution that brings the streak to the threshold. *)
Lemma turn_opens {V} o (ts : list (Turn V)) (w w' : Wrapper V) t :
  interleave o start ts = Some w ->
  turn o w t = Some w' ->
  state (vars w) <> open ->
  state (vars w') = open ->
  exists rep,
    reports w' = rep :: reports w
    /\ failed rep = true
    /\ threshold o <= streak (reports w').
Proof.
  intros Hrun Ht Hb Hopen.
  assert (Inv : counted (vars w) (reports w)).
  { apply (interleave_counted o ts start w Hrun). intros _. simpl. lia. }
  specialize (Inv Hb).
  destruct t as [now|r now]; simpl in Ht.
  - rewrite (maybe_reset_not_open_id _ _ _ Hb) in Ht.
    rewrite (bool_decide_eq_false_2 _ Hb) in Ht. simpl in Ht.
    injection Ht as <-. simpl in Hopen. contradiction.
  - destruct (in_flight w) as [|n]; [discriminate|].
    destruct r as [v|e|]; injection Ht as <-; simpl in *.
    + destruct (state (vars w)); simpl in Hopen; try discriminate. contradiction.
    + revert Hopen. case_bool_decide; [|contradiction]. intros _.
      eexists. split; [reflexivity|]. unfold failed. simpl. split; [reflexivity | lia].
    + revert Hopen. case_bool_decide; [|contradiction]. intros _.
      eexists. split; [reflexivity|]. unfold failed. simpl. split; [reflexivity | lia].
Qed.

(** C9 (evaluation of the code where the claim fails).  With
    [threshold = 1], two calls are made while the breaker is closed;
    the second fails first and opens the breaker; the first then
    returns: it resets the counter to 0 and leaves the breaker open. *)
Lemma C9_late_success_leaves_the_breaker_open :
  let o := {| threshold := 1; timeout := 60000; resetTimeout := 30000 |} in
  let boom := mkError PlainError "boom" in
  interleave (V := Z) o start
    [Enter 0; Enter 1; Settle (Rejects boom) 2; Settle (Fulfils 7) 3]
  = Some {| vars := {| failures := 0; lastFailureTime := 2; state := open |};
            in_flight := 0;
            reports := [mkReport (Returned 7) true; mkReport (Thrown boom) true] |}.
Proof. vm_compute. reflexivity. Qed.

(** C9.  The part of a wrapped call that runs when the call returns
    sets the counter to 0 and leaves the breaker closed, unless the
    breaker is open by then (opened by another call that failed in the
    meantime), in which case it stays open; a call during which no
    other call runs and which returns leaves the counter at 0 and the
    breaker closed.  In every schedule of overlapping calls from the
    initial breaker, the turn that takes the breaker from a state other
    than open to open is the settlement of a failed execution that
    completes a run of at least [threshold] consecutive failed
    executions, with no success in between; the same holds for calls
    that are run one after the other. *)
Theorem C9_success_resets_and_opening_needs_consecutive_failures
    {V} (o : Options) :
  (forall b (v : V) now,
      failures (settle o (Fulfils v) now b).1 = 0
      /\ state (settle o (Fulfils v) now b).1
         = if bool_decide (state b = open) then open else closed)
  /\
  (forall b (c : Call V) v,
      result (call o b c).2 = Returned v ->
      failures (call o b c).1 = 0 /\ state (call o b c).1 = closed)
  /\
  (forall (ts : list (Turn V)) (w w' : Wrapper V) (t : Turn V),
      interleave o start ts = Some w ->
      turn o w t = Some w' ->
      state (vars w) <> open ->
      state (vars w') = open ->
      exists rep,
        reports w' = rep :: reports w
        /\ failed rep = true
        /\ threshold o <= streak (reports w'))
  /\
  (forall (cs : list (Call V)) (c : Call V),
      let b := (run o initial [] cs).1 in
      let log := (run o initial [] cs).2 in
      state b <> open ->
      state (call o b c).1 = open ->
      failed (call o b c).2 = true /\
      threshold o <= streak ((call o b c).2 :: log)).
Proof.
  split; [|split; [|split]].
  - intros b v now. destruct (settle_success o v now b) as (H1 & _ & H2). by split.
  - intros b c v. apply call_success_closes.
  - intros ts w w' t. apply turn_opens.
  - intros cs c. apply call_opens.
Qed.

Lemma C9_witness :
  let o := {| threshold := 2; timeout := 60000; resetTimeout := 30000 |} in
  let boom := Rejects (mkError PlainError "boom") in
  let ts := [Enter 0; Enter 1; Enter 2; Settle boom 3; Settle (Fulfils 7%Z) 4;
             Settle boom 5; Enter 6] in
  let w := {| vars := {| failures := 1; lastFailureTime := 5; state := closed |};
              in_flight := 1;
              reports := [mkReport (Thrown (mkError PlainError "boom")) true;
                          mkReport (Returned 7%Z) true;
                          mkReport (Thrown (mkError PlainError "boom")) true] |} in
  let w' := {| vars := {| failures := 2; lastFailureTime := 7; state := open |};
               in_flight := 0;
               reports := mkReport (Thrown (mkError PlainError "boom")) true
                            :: reports w |} in
  exists rep,
    reports w' = rep :: reports w
    /\ failed rep = true
    /\ threshold o <= streak (reports w').
Proof.
  intros o boom ts w w'.
  apply (proj1 (proj2 (proj2
           (C9_success_resets_and_opening_needs_consecutive_failures o)))
           ts w w' (Settle boom 7)).
  - vm_compute. reflexivity.
  - vm_compute. reflexivity.
  - vm_compute. discriminate.
  - reflexivity.
Defined.

End BreakerFacts.

Module RetryFacts.
Import Errors Retry.

(** [shouldRetry] answers [false] exactly for the errors outside its
    three retryable groups. *)
Lemma shouldRetry_false_iff e :
  shouldRetry e = false <->
    includes (message e) "ECONNREFUSED" = false /\
    includes (message e) "ETIMEDOUT" = false /\
    includes (message e) "ENOTFOUND" = false /\
    cls e <> TimeoutError /\
    cls e <> ExternalServiceError /\
    (cls e = DatabaseError ->
       includes (message e) "deadlock" = false /\
       includes (message e) "timeout" = false /\
       includes (message e) "connection" = false).
Proof.
  destruct e as [c m]. unfold shouldRetry, instanceOf. simpl.
  destruct (includes m "ECONNREFUSED"), (includes m "ETIMEDOUT"),
           (includes m "ENOTFOUND"); simpl;
    try (split; [discriminate | intros (?&?&?&_); discriminate]).
  destruct (includes m "deadlock"), (includes m "timeout"),
           (includes m "connection"), c; cbn;
    (split; [intros H; try discriminate H; repeat split; try discriminate; intros H0; discriminate H0
           | intros (_ & _ & _ & Ht & He & Hd); try reflexivity;
             try (by destruct Ht); try (by destruct He);
             destruct (Hd eq_refl) as (? & ? & ?); discriminate]).
Qed.

(** C6.  With [maxAttempts = 3], an operation whose first two
    invocations throw retryable errors and whose third returns [v]
    makes [retry] resolve to [v]; the operation runs three times and
    [onRetry] (which returns normally) is called exactly twice, once
    after each failed attempt and before the backoff wait. *)
Theorem C6_fails_twice_then_succeeds
    {V} (operation : nat -> Result V) (cb : JsError -> Z -> option JsError)
    (o : Options) (e1 e2 : JsError) (v : V) :
  maxAttempts o = 3 ->
  operation 0%nat = Thrown e1 ->
  operation 1%nat = Thrown e2 ->
  operation 2%nat = Returned v ->
  shouldRetry e1 = true ->
  shouldRetry e2 = true ->
  cb e1 1 = None ->
  cb e2 2 = None ->
  retry operation (Some cb) o =
    (Resolved v,
     [Invoked 0; OnRetry e1 1; Slept (backoff o 1);
      Invoked 1; OnRetry e2 2; Slept (backoff o 2);
      Invoked 2])
  /\ count is_onRetry (retry operation (Some cb) o).2 = 2%nat
  /\ count is_invocation (retry operation (Some cb) o).2 = 3%nat.
Proof.
  intros Hm H0 H1 H2 Hr1 Hr2 Hc1 Hc2.
  assert (E : retry operation (Some cb) o =
    (Resolved v,
     [Invoked 0; OnRetry e1 1; Slept (backoff o 1);
      Invoked 1; OnRetry e2 2; Slept (backoff o 2);
      Invoked 2])).
  { unfold retry. rewrite Hm.
    change (Z.to_nat 3) with 3%nat.
    cbn [attempts]. rewrite Hm, H0, H1, H2, Hr1, Hr2.
    change (1 + 1) with 2. rewrite Hc1, Hc2. reflexivity. }
  rewrite E. repeat split.
Qed.

Lemma C6_witness :
  let e := newTimeoutError "fetch" 50 in
  let operation := fun k : nat =>
    match k with 0%nat | 1%nat => Thrown e | _ => Returned 42 end in
  let o := defaults (mkRaw (Some 3) None None None) in
  retry operation (Some (fun _ _ => None)) o =
    (Resolved 42,
     [Invoked 0; OnRetry e 1; Slept 100;
      Invoked 1; OnRetry e 2; Slept 200;
      Invoked 2]).
Proof.
  intros e operation o.
  exact (proj1 (C6_fails_twice_then_succeeds operation (fun _ _ => None) o e e 42
                  eq_refl eq_refl eq_refl eq_refl eq_refl eq_refl eq_refl eq_refl)).
Defined.

(** C7.  With [maxAttempts >= 2], when the first invocation throws an
    error outside the retryable groups (no network pattern in the
    message, not a [TimeoutError], not an [ExternalServiceError], and
    not a [DatabaseError] whose message contains "deadlock", "timeout"
    or "connection"), [retry] rejects with that same error after a
    single invocation: no [onRetry] call and no wait take place. *)
Theorem C7_non_retryable_error_is_not_retried
    {V} (operation : nat -> Result V)
    (onRetry : option (JsError -> Z -> option JsError))
    (o : Options) (e : JsError) :
  2 <= maxAttempts o ->
  operation 0%nat = Thrown e ->
  includes (message e) "ECONNREFUSED" = false ->
  includes (message e) "ETIMEDOUT" = false ->
  includes (message e) "ENOTFOUND" = false ->
  cls e <> TimeoutError ->
  cls e <> ExternalServiceError ->
  (cls e = DatabaseError ->
     includes (message e) "deadlock" = false /\
     includes (message e) "timeout" = false /\
     includes (message e) "connection" = false) ->
  retry operation onRetry o = (RejectedWith e, [Invoked 0])
  /\ count is_invocation (retry operation onRetry o).2 = 1%nat
  /\ count is_onRetry (retry operation onRetry o).2 = 0%nat
  /\ count is_sleep (retry operation onRetry o).2 = 0%nat.
Proof.
  intros Hm H0 Hn1 Hn2 Hn3 Ht He Hd.
  assert (Hs : shouldRetry e = false).
  { apply shouldRetry_false_iff. auto 10. }
  assert (E : retry operation onRetry o = (RejectedWith e, [Invoked 0])).
  { unfold retry.
    destruct (Z.to_nat (maxAttempts o)) as [|fuel] eqn:Hf; [lia|].
    simpl. rewrite H0.
    rewrite bool_decide_eq_false_2 by lia.
    rewrite Hs. reflexivity. }
  rewrite E. repeat split.
Qed.

Lemma C7_witness :
  let e := mkError ValidationError "name is required" in
  let operation := fun k : nat =>
    match k with 0%nat => Thrown e | _ => Returned 42 end in
  let o := defaults (mkRaw None None None None) in
  retry operation (Some (fun _ _ => None)) o = (RejectedWith e, [Invoked 0]).
Proof.
  intros e operation o.
  refine (proj1 (C7_non_retryable_error_is_not_retried operation _ o e
                   _ eq_refl eq_refl eq_refl eq_refl _ _ _)).
  - vm_compute. discriminate.
  - discriminate.
  - discriminate.
  - discriminate.
Defined.

End RetryFacts.

Module LimiterFacts.
Import Limiter.

Lemma recent_stale l now stamps :
  Forall (fun t => windowMs l <= now - t) stamps -> recent l now stamps = [].
Proof.
  unfold recent. induction 1 as [|t ts Ht _ IH]; simpl; [reflexivity|].
  rewrite IH. destruct (Z.ltb_spec (now - t) (windowMs l)); [lia | reflexivity].
Qed.

Lemma recent_fresh l now stamps :
  Forall (fun t => now - t < windowMs l) stamps -> recent l now stamps = stamps.
Proof.
  unfold recent. induction 1 as [|t ts Ht _ IH]; simpl; [reflexivity|].
  rewrite IH. destruct (Z.ltb_spec (now - t) (windowMs l)); [reflexivity | lia].
Qed.

Lemma recent_length l now stamps :
  (length (recent l now stamps) <= length stamps)%nat.
Proof. apply List.filter_length_le. Qed.

(** An accepted call stores the pruned stamps followed by [now]. *)
Lemma isAllowed_accepts now id l :
  Z.of_nat (length (recent l now (default [] (requests l !! id)))) < maxRequests l ->
  isAllowed now id l =
    (true, set_requests l
             (<[id := recent l now (default [] (requests l !! id)) ++ [now]]>
                (requests l))).
Proof.
  intros H. unfold isAllowed.
  destruct (Z.geb_spec
    (Z.of_nat (length (recent l now (default [] (requests l !! id)))))
    (maxRequests l)); [lia | reflexivity].
Qed.

Lemma isAllowed_rejects now id l :
  maxRequests l <= Z.of_nat (length (recent l now (default [] (requests l !! id)))) ->
  isAllowed now id l = (false, l).
Proof.
  intros H. unfold isAllowed.
  destruct (Z.geb_spec
    (Z.of_nat (length (recent l now (default [] (requests l !! id)))))
    (maxRequests l)); [reflexivity | lia].
Qed.

Lemma isAllowed_known now id l stamps :
  requests l !! id = Some stamps ->
  isAllowed now id l =
    if Z.of_nat (length (recent l now stamps)) >=? maxRequests l
    then (false, l)
    else (true, set_requests l (<[id := recent l now stamps ++ [now]]> (requests l))).
Proof. intros H. unfold isAllowed. rewrite H. reflexivity. Qed.

(** C4.  With [windowMs = 1000] and [maxRequests = 3], starting from
    any limiter that holds no stamp of the identifier inside the
    window (a new limiter in particular), four calls for that
    identifier at times [t1 <= t2 <= t3 <= t4] less than 1000ms apart
    answer true, true, true, false; a later call at a time [t5] at
    least 1000ms after [t1] answers true again. *)
Theorem C4_three_accepted_fourth_rejected_then_accepted_again
    (l : RateLimiter) (id : string) (t1 t2 t3 t4 t5 : Z) :
  windowMs l = 1000 ->
  maxRequests l = 3 ->
  Forall (fun t => 1000 <= t1 - t) (default [] (requests l !! id)) ->
  t1 <= t2 -> t2 <= t3 -> t3 <= t4 -> t4 - t1 < 1000 ->
  1000 <= t5 - t1 ->
  let '(a1, l1) := isAllowed t1 id l in
  let '(a2, l2) := isAllowed t2 id l1 in
  let '(a3, l3) := isAllowed t3 id l2 in
  let '(a4, l4) := isAllowed t4 id l3 in
  let '(a5, l5) := isAllowed t5 id l4 in
  [a1; a2; a3; a4] = [true; true; true; false] /\ a5 = true.
Proof.
  intros Hw Hm Hold H12 H23 H34 H41 H51.
  rewrite isAllowed_accepts; rewrite recent_stale;
    try (rewrite Hw; exact Hold); try (simpl; lia).
  simpl app.
  set (l1 := set_requests l _).
  rewrite (isAllowed_known t2 id l1 [t1]) by apply lookup_insert_eq.
  rewrite recent_fresh by (repeat constructor; simpl; lia).
  change (maxRequests l1) with (maxRequests l). rewrite Hm. simpl.
  set (l2 := set_requests l1 _).
  rewrite (isAllowed_known t3 id l2 [t1; t2]) by apply lookup_insert_eq.
  rewrite recent_fresh by (repeat constructor; simpl; lia).
  change (maxRequests l2) with (maxRequests l). rewrite Hm. simpl.
  set (l3 := set_requests l2 _).
  assert (H3 : requests l3 !! id = Some [t1; t2; t3]) by apply lookup_insert_eq.
  rewrite (isAllowed_known t4 id l3 _ H3).
  rewrite recent_fresh by (repeat constructor; simpl; lia).
  change (maxRequests l3) with (maxRequests l). rewrite Hm. simpl.
  rewrite (isAllowed_known t5 id l3 _ H3).
  assert (Hlen : (length (recent l3 t5 [t1; t2; t3]) <= 2)%nat).
  { unfold recent. simpl. change (windowMs l3) with (windowMs l). rewrite Hw.
    destruct (Z.ltb_spec (t5 - t1) 1000); [lia|].
    destruct (t5 - t2 <? 1000), (t5 - t3 <? 1000); simpl; lia. }
  change (maxRequests l3) with (maxRequests l). rewrite Hm.
  destruct (Z.geb_spec (Z.of_nat (length (recent l3 t5 [t1; t2; t3]))) 3);
    [lia | split; reflexivity].
Qed.

Lemma C4_witness :
  let l := create (Some 1000) (Some 3) in
  let '(a1, l1) := isAllowed 5000 "scaffold" l in
  let '(a2, l2) := isAllowed 5300 "scaffold" l1 in
  let '(a3, l3) := isAllowed 5600 "scaffold" l2 in
  let '(a4, l4) := isAllowed 5999 "scaffold" l3 in
  let '(a5, l5) := isAllowed 6000 "scaffold" l4 in
  [a1; a2; a3; a4] = [true; true; true; false] /\ a5 = true.
Proof.
  apply (C4_three_accepted_fourth_rejected_then_accepted_again
           (create (Some 1000) (Some 3)) "scaffold" 5000 5300 5600 5999 6000);
    first [reflexivity | lia | constructor].
Defined.

(** C5.  [isAllowed] rejects exactly when the identifier has at least
    [maxRequests] stored stamps inside the window; a rejecting call
    returns the limiter unchanged (no stamp added, removed or pruned for
    any identifier), so only an accepting call changes it, and what an
    accepting call changes is the entry of that identifier, which
    becomes its in-window stamps followed by the current time. *)
Theorem C5_rejecting_call_leaves_the_limiter_unchanged
    (now : Z) (id : string) (l : RateLimiter) :
  let inWindow := recent l now (default [] (requests l !! id)) in
  ((isAllowed now id l).1 = false <->
     maxRequests l <= Z.of_nat (length inWindow))
  /\ ((isAllowed now id l).1 = false -> (isAllowed now id l).2 = l)
  /\ ((isAllowed now id l).2 <> l -> (isAllowed now id l).1 = true)
  /\ ((isAllowed now id l).1 = true ->
        requests (isAllowed now id l).2 !! id = Some (inWindow ++ [now])
        /\ (forall id', id' <> id ->
              requests (isAllowed now id l).2 !! id' = requests l !! id')
        /\ windowMs (isAllowed now id l).2 = windowMs l
        /\ maxRequests (isAllowed now id l).2 = maxRequests l).
Proof.
  intros inWindow.
  destruct (Z_le_gt_dec (maxRequests l) (Z.of_nat (length inWindow))) as [Hge|Hlt].
  - rewrite (isAllowed_rejects now id l Hge). simpl.
    repeat split; try done.
  - rewrite (isAllowed_accepts now id l) by (fold inWindow; lia). simpl.
    repeat split; try done; try lia.
    + apply lookup_insert_eq.
    + intros id' Hne. by apply lookup_insert_ne.
Qed.

Lemma C5_witness :
  let l := {| requests := {[ "scaffold" := [5000; 5300; 5600] ]};
              windowMs := 1000; maxRequests := 3 |} in
  (isAllowed 5999 "scaffold" l).2 = l.
Proof.
  intros l.
  apply (proj1 (proj2 (C5_rejecting_call_leaves_the_limiter_unchanged
                         5999 "scaffold" l))).
  vm_compute. reflexivity.
Defined.

End LimiterFacts.

Module LedgerFacts.
Import Errors StateErr Ledger SizeFacts.

(** Calling a method of a handle leaves the maps alone. *)
Lemma invoke_state b l : (invoke b l).1 = l.
Proof. destruct b; reflexivity. Qed.

Lemma guarded_invoke_caught (g : bool) b l :
  try_catch (if g then invoke b else ret tt) (fun _ => ret tt) l
  = (l, Returned tt).
Proof. destruct g, b; reflexivity. Qed.

Lemma close_connection_caught c l :
  try_catch (close_connection c) (fun _ => ret tt) l = (l, Returned tt).
Proof.
  unfold close_connection.
  destruct (close c) as [[]|], (end_ c) as [[]|], (disconnect c) as [[]|];
    reflexivity.
Qed.

Lemma close_file_caught (h : Handle) l :
  try_catch (match close h with Some b => invoke b | None => ret tt end)
            (fun _ => ret tt) l = (l, Returned tt).
Proof. destruct (close h) as [[]|]; reflexivity. Qed.

(** Unregistering a connection or a file handle never throws. *)
Lemma unregisterConnection_returns id l :
  unregisterConnection id l =
    (match connections l !! id with
     | Some c => if truthy c then set_connections (delete id) l else l
     | None => l
     end, Returned tt).
Proof.
  unfold unregisterConnection, bind, get.
  destruct (connections l !! id) as [c|]; [|reflexivity].
  destruct (truthy c); [|reflexivity].
  rewrite close_connection_caught. reflexivity.
Qed.

Lemma unregisterFileHandle_returns id l :
  unregisterFileHandle id l =
    (match fileHandles l !! id with
     | Some h => if truthy h then set_fileHandles (delete id) l else l
     | None => l
     end, Returned tt).
Proof.
  unfold unregisterFileHandle, bind, get.
  destruct (fileHandles l !! id) as [h|]; [|reflexivity].
  destruct (truthy h); [|reflexivity].
  rewrite close_file_caught. reflexivity.
Qed.

Lemma kill_loop_returns (ps : list (string * Process)) (l : Ledger) :
  for_each ps
    (fun '(id, p) =>
       try_catch (if negb (killed p) then invoke (kill p) else ret tt)
                 (fun _ => ret tt)) l
  = (l, Returned tt).
Proof.
  induction ps as [|[id p] ps IH]; [reflexivity|].
  simpl. unfold bind. rewrite guarded_invoke_caught. exact IH.
Qed.

Lemma timer_loop_returns (ts : list (string * Timer)) (l : Ledger) :
  for_each ts (fun _ => ret tt) l = (l, Returned tt).
Proof. induction ts as [|t ts IH]; [reflexivity|]. simpl. exact IH. Qed.

Lemma all_settled_returns {A} (ms : list (M Ledger A)) l :
  exists l' rs, all_settled ms l = (l', Returned rs).
Proof.
  revert l. induction ms as [|m ms IH]; intros l; simpl.
  - eexists _, _. reflexivity.
  - destruct (m l) as [l1 r]. destruct (IH l1) as (l2 & rs & E).
    rewrite E. eexists _, _. reflexivity.
Qed.

Lemma cleanup_empties (l : Ledger) : cleanup l = (empty, Returned tt).
Proof.
  unfold cleanup. unfold bind at 1. unfold get at 1.
  unfold bind at 1. rewrite kill_loop_returns.
  unfold bind at 1. rewrite timer_loop_returns.
  unfold bind at 1. unfold get at 1.
  unfold bind at 1.
  destruct (all_settled_returns
              (unregisterConnection <$> (map_to_list (connections l)).*1) l)
    as (l1 & rs1 & E1).
  rewrite E1.
  unfold bind at 1. unfold get at 1.
  unfold bind at 1.
  destruct (all_settled_returns
              (unregisterFileHandle <$> (map_to_list (fileHandles l1)).*1) l1)
    as (l2 & rs2 & E2).
  rewrite E2. reflexivity.
Qed.

(** C8.  From every ledger, whatever the handles' [kill], [close],
    [end] and [disconnect] do when called (throwing included),
    [cleanup] returns, and it leaves the four maps empty, so that
    [getUsage] reports zero processes, connections, file handles and
    timers. *)
Theorem C8_cleanup_always_resolves_and_empties_the_ledger (l : Ledger) :
  cleanup l = (empty, Returned tt)
  /\ getUsage (cleanup l).1 = {| u_processes := 0; u_connections := 0;
                                  u_fileHandles := 0; u_timers := 0 |}.
Proof.
  pose proof (cleanup_empties l) as E.
  rewrite E. split; reflexivity.
Qed.

Lemma register_at_cap id r l :
  (cap (kind_of r) <= count (kind_of r) l)%nat ->
  register id r l = (l, Thrown (cap_error (kind_of r))).
Proof.
  intros H.
  destruct r; simpl in *;
    unfold registerProcess, registerTimer, registerConnection,
      registerFileHandle, bind, get;
    rewrite (proj2 (Nat.leb_le _ _) H); reflexivity.
Qed.

Lemma register_bounded id r l : bounded l -> bounded (register id r l).1.
Proof.
  intros B k. pose proof (B k) as Bk.
  destruct r; simpl;
    unfold registerProcess, registerTimer, registerConnection,
      registerFileHandle, bind, get;
    match goal with
    | |- context [(?c <=? ?n)%nat] => destruct (Nat.leb_spec c n) as [Hc|Hc]
    end; simpl; try exact Bk;
    destruct k; simpl in *; try exact Bk;
    match goal with
    | |- (size (<[?i:=?x]> ?m) <= _)%nat =>
        pose proof (size_insert_le m i x); lia
    end.
Qed.

Lemma unregister_bounded k id l : bounded l -> bounded (unregister k id l).1.
Proof.
  intros B k'. pose proof (B k') as Bk.
  destruct k; simpl.
  - unfold unregisterProcess, bind, get.
    destruct (processes l !! id) as [p|]; [|exact Bk].
    destruct (negb (killed p)); [destruct (kill p)|]; simpl; try exact Bk;
      destruct k'; simpl in *; try exact Bk;
      pose proof (size_delete_le (processes l) id); lia.
  - unfold unregisterTimer, bind, get.
    destruct (timers l !! id); [|exact Bk]. simpl.
    destruct k'; simpl in *; try exact Bk.
    pose proof (size_delete_le (timers l) id); lia.
  - rewrite unregisterConnection_returns. simpl.
    destruct (connections l !! id) as [c|]; [|exact Bk].
    destruct (truthy c); [|exact Bk].
    destruct k'; simpl in *; try exact Bk.
    pose proof (size_delete_le (connections l) id); lia.
  - rewrite unregisterFileHandle_returns. simpl.
    destruct (fileHandles l !! id) as [h|]; [|exact Bk].
    destruct (truthy h); [|exact Bk].
    destruct k'; simpl in *; try exact Bk.
    pose proof (size_delete_le (fileHandles l) id); lia.
Qed.

Lemma empty_bounded : bounded empty.
Proof. intros []; simpl; rewrite map_size_empty; unfold maxProcesses, maxTimers, maxConnections, maxFileHandles; lia. Qed.

Lemma step_bounded op l : bounded l -> bounded (step op l).1.
Proof.
  destruct op as [id r|k id|]; simpl.
  - apply register_bounded.
  - apply unregister_bounded.
  - intros _. rewrite cleanup_empties. apply empty_bounded.
Qed.

Lemma run_bounded ops : forall l, bounded l -> bounded (run ops l).
Proof.
  induction ops as [|op ops IH]; intros l B; simpl; [exact B|].
  apply IH, step_bounded, B.
Qed.

(** C2 (where the claim as stated fails).  With ten processes
    registered the count has reached the cap; registering an eleventh
    throws a plain [Error] with the message "Maximum number of processes
    reached", not a [ResourceExhaustedError]. *)
Lemma C2_register_at_cap_throws_plain_error :
  let l := run ten_processes empty in
  let r := (register "p10" (RProcess (mkProcess false Succeeds)) l).2 in
  count KProcess l = cap KProcess
  /\ r = Thrown (mkError PlainError "Maximum number of processes reached")
  /\ ~ (exists e, r = Thrown e /\ cls e = ResourceExhaustedError).
Proof.
  intros l r.
  assert (Hc : count KProcess l = cap KProcess) by (vm_compute; reflexivity).
  assert (Hr : r = Thrown (mkError PlainError "Maximum number of processes reached")).
  { unfold r.
    rewrite (register_at_cap "p10" (RProcess (mkProcess false Succeeds)) l)
      by (simpl kind_of; rewrite Hc; lia).
    reflexivity. }
  split; [exact Hc | split; [exact Hr |]].
  intros (e & He & Hcls). rewrite Hr in He. inversion He; subst e.
  discriminate Hcls.
Qed.

(** C2 (amended).  After every sequence of register, unregister and
    cleanup calls made on the empty ledger, the count of each kind is at
    most its cap (10 processes, 100 timers, 100 connections, 50 file
    handles); and a register call made when the count of its kind has
    reached the cap throws a plain [Error] whose message is "Maximum
    number of <kind> reached", leaving the ledger as it was. *)
Theorem C2_count_within_cap_and_register_at_cap_throws
    (ops : list Op) (k : Kind) :
  (count k (run ops empty) <= cap k)%nat
  /\ (forall id r,
        kind_of r = k ->
        count k (run ops empty) = cap k ->
        register id r (run ops empty)
        = (run ops empty,
           Thrown (mkError PlainError
                     ("Maximum number of " +:+ plural k +:+ " reached")))).
Proof.
  split.
  - apply run_bounded, empty_bounded.
  - intros id r Hk Hc. subst k.
    rewrite register_at_cap by lia. reflexivity.
Qed.

Lemma C2_witness :
  register "p10" (RProcess (mkProcess true Succeeds)) (run ten_processes empty)
  = (run ten_processes empty,
     Thrown (mkError PlainError "Maximum number of processes reached")).
Proof.
  apply (proj2 (C2_count_within_cap_and_register_at_cap_throws
                  ten_processes KProcess)
           "p10" (RProcess (mkProcess true Succeeds)) eq_refl).
  vm_compute. reflexivity.
Defined.

End LedgerFacts.

Module PoolFacts.
Import Errors StateErr Ledger Pool SizeFacts.

Lemma on_ledger_pool {A} (m : M Ledger A) w : pool (on_ledger m w).1 = pool w.
Proof. unfold on_ledger. destruct (m (ledger w)). reflexivity. Qed.

Lemma pop_length (a : list Handle) :
  match last a with
  | Some _ => S (length (removelast a)) = length a
  | None => a = []
  end.
Proof.
  destruct (last a) as [c|] eqn:H.
  - apply last_Some in H as [a' ->].
    rewrite removelast_last, length_app. simpl. lia.
  - by apply last_None.
Qed.

Lemma fulfilled_length created n : (length (fulfilled created n) <= n)%nat.
Proof.
  unfold fulfilled. etransitivity; [apply omap_length_le|].
  by rewrite length_seq.
Qed.

Lemma hand_out_pool id c w :
  pool (hand_out id c w).1 = pool (set_inUse (insert id c) w).
Proof.
  unfold hand_out, bind, modify, on_ledger. simpl.
  destruct (registerConnection id c (ledger w)) as [l' [[]|e]]; reflexivity.
Qed.

Lemma acquire_once_invariant id created w :
  invariant (pool w) -> invariant (pool (acquire_once id created w).1).
Proof.
  unfold invariant. intros Inv.
  pose proof (pop_length (available (pool w))) as Hpop.
  pose proof (size_insert_le (inUse (pool w)) id) as Hins.
  unfold acquire_once, bind, get, modify. simpl.
  destruct (last (available (pool w))) as [c|]; simpl.
  - destruct (truthy c) eqn:Ht; simpl.
    + rewrite Ht, hand_out_pool. simpl. specialize (Hins c). lia.
    + destruct (Nat.ltb_spec (size (inUse (pool w))) (maxSize (pool w))); simpl.
      * destruct created as [c'|e]; simpl; [|lia].
        destruct (truthy c'); simpl; [|lia].
        rewrite hand_out_pool. simpl. specialize (Hins c'). lia.
      * rewrite Ht. simpl. lia.
  - rewrite Hpop in Inv. simpl in Inv.
    destruct (Nat.ltb_spec (size (inUse (pool w))) (maxSize (pool w))); simpl.
    + destruct created as [c'|e]; simpl; [|rewrite Hpop; simpl; lia].
      destruct (truthy c'); simpl; [|rewrite Hpop; simpl; lia].
      rewrite hand_out_pool. simpl. rewrite Hpop. simpl.
      specialize (Hins c'). lia.
    + rewrite Hpop. simpl. lia.
Qed.

Lemma acquire_invariant passes : forall w,
  invariant (pool w) -> invariant (pool (acquire passes w).1).
Proof.
  induction passes as [|[id created] passes IH]; intros w Inv; simpl; [exact Inv|].
  unfold bind.
  pose proof (acquire_once_invariant id created w Inv) as H1.
  destruct (acquire_once id created w) as [w1 [[id' c|]|e]]; simpl in *.
  - exact H1.
  - apply IH, H1.
  - exact H1.
Qed.

Lemma release_invariant id destroyed w :
  invariant (pool w) -> invariant (pool (release id destroyed w).1).
Proof.
  unfold invariant. intros Inv.
  unfold release, bind, get, modify. simpl.
  destruct (inUse (pool w) !! id) as [c|] eqn:Hid; [|exact Inv].
  destruct (truthy c); [|exact Inv].
  pose proof (map_size_delete_Some id (inUse (pool w)) (mk_is_Some _ _ Hid)) as Hdel.
  assert (Hpos : (0 < size (inUse (pool w)))%nat).
  { destruct (size (inUse (pool w))) eqn:Hs; [|lia].
    apply map_size_empty_inv in Hs. rewrite Hs in Hid. discriminate Hid. }
  destruct (Nat.ltb_spec (length (available (pool w))) (maxSize (pool w))); simpl.
  - rewrite on_ledger_pool. simpl. rewrite length_app. simpl. lia.
  - destruct destroyed as [[]|e]; simpl.
    + rewrite on_ledger_pool. simpl. lia.
    + lia.
Qed.

(** Releasing an identifier that is not in use changes nothing, in the
    pool or in the ledger. *)
Lemma release_unknown id destroyed w :
  inUse (pool w) !! id = None -> release id destroyed w = (w, Returned tt).
Proof. intros H. unfold release, bind, get. simpl. rewrite H. reflexivity. Qed.

Lemma construct_invariant mn mx : invariant (construct mn mx).
Proof. unfold invariant, construct. simpl. rewrite map_size_empty. lia. Qed.

Lemma initialize_invariant created (l : Ledger) mn mx :
  (minSize (construct mn mx) <= maxSize (construct mn mx))%nat ->
  invariant (pool (initialize created (mkWorld (construct mn mx) l)).1).
Proof.
  intros H. unfold invariant, initialize, bind, get, modify. simpl in *.
  rewrite map_size_empty.
  pose proof (fulfilled_length created (or_default 2 mn)). lia.
Qed.

Lemma step_invariant st w : invariant (pool w) -> invariant (pool (step st w)).
Proof.
  destruct st as [passes|id destroyed]; simpl.
  - apply acquire_invariant.
  - apply release_invariant.
Qed.

Lemma run_invariant steps : forall w,
  invariant (pool w) -> invariant (pool (run steps w)).
Proof.
  induction steps as [|st steps IH]; intros w Inv; simpl; [exact Inv|].
  apply IH, step_invariant, Inv.
Qed.

(** For a pool whose fields have [minSize <= maxSize], whose warm-up
    completes before its first use and whose calls are run one after
    the other, the invariant [available.length + inUse.size <= maxSize]
    holds for the new pool, holds once the warm-up has completed
    (whichever creations failed), and holds after every sequence of
    [acquire] and [release] calls made from there; from any state in
    which it holds, one pass of [acquire], a whole [acquire] and a
    [release] each preserve it, whatever [createFn], [destroyFn] and the
    resource manager do; and releasing an identifier that is not in use
    changes neither the pool nor the ledger. *)
Lemma invariant_kept_by_settled_calls
    (mn mx : option nat) (created : nat -> Result Handle) (l : Ledger) :
  (minSize (construct mn mx) <= maxSize (construct mn mx))%nat ->
  invariant (construct mn mx)
  /\ invariant (pool (warmed_up mn mx created l))
  /\ (forall steps, invariant (pool (run steps (warmed_up mn mx created l))))
  /\ (forall w id c, invariant (pool w) ->
        invariant (pool (acquire_once id c w).1))
  /\ (forall w passes, invariant (pool w) ->
        invariant (pool (acquire passes w).1))
  /\ (forall w id d, invariant (pool w) ->
        invariant (pool (release id d w).1))
  /\ (forall w id d, inUse (pool w) !! id = None ->
        release id d w = (w, Returned tt)).
Proof.
  intros Hsz.
  pose proof (initialize_invariant created l mn mx Hsz) as Hinit.
  split; [apply construct_invariant|].
  split; [exact Hinit|].
  split; [intros steps; apply run_invariant, Hinit|].
  split; [intros w id c; apply acquire_once_invariant|].
  split; [intros w passes; apply acquire_invariant|].
  split; [intros w id d; apply release_invariant|].
  intros w id d; apply release_unknown.
Qed.

(** A pass of [acquire] during which nothing else runs is its two
    parts, one after the other. *)
Lemma acquire_once_parts id created w :
  acquire_once id created w =
    match acquire_called id w with
    | (w1, Returned None) => acquire_created id created w1
    | (w1, Returned (Some a)) => (w1, Returned a)
    | (w1, Thrown e) => (w1, Thrown e)
    end.
Proof.
  unfold acquire_once, acquire_called, acquire_created, bind, get, modify. simpl.
  destruct (missing (last (available (pool w)))
            && (size (inUse (pool w)) <? maxSize (pool w))%nat) eqn:E; simpl.
  - destruct created as [c|e]; simpl; [|reflexivity].
    destruct (truthy c); reflexivity.
  - destruct (last (available (pool w))) as [c|]; simpl; [|reflexivity].
    destruct (truthy c); simpl; [|reflexivity].
    destruct (hand_out id c _) as [w1 [a|e]]; reflexivity.
Qed.

(** A [release] during which nothing else runs is its parts, one after
    the other. *)
Lemma release_parts id destroyed w :
  release id destroyed w =
    match release_called id w with
    | (w1, Returned Finished) => (w1, Returned tt)
    | (w1, Returned AwaitsUnregister) => on_ledger (unregisterConnection id) w1
    | (w1, Returned AwaitsDestroy) =>
        (settle destroyed ;;; on_ledger (unregisterConnection id)) w1
    | (w1, Thrown e) => (w1, Thrown e)
    end.
Proof.
  unfold release, release_called, bind, get, modify. simpl.
  destruct (inUse (pool w) !! id) as [c|]; [|reflexivity].
  destruct (truthy c); [|reflexivity].
  destruct (length (available (pool w)) <? maxSize (pool w))%nat; reflexivity.
Qed.

(** The decided invariant is the invariant. *)
Lemma within_census r : within (census r) = true <-> invariant (pool (world r)).
Proof. unfold within, census, invariant. simpl. apply Nat.leb_le. Qed.

(** C3 (evaluation of the code where the claim fails).  All creations
    fulfil, with a connection object that has a [close] method.
    (1) Options [{minSize: 0, maxSize: 1}]: the constructor stores
    [minSize = 2], and when the warm-up completes [available] holds 2
    connections with [maxSize = 1].
    (2) Options [{minSize: 1, maxSize: 1}], those of the SQLite pool of
    tools/database.ts: [acquire] is called before the warm-up has
    completed, finds [available] empty and creates a connection; after
    the warm-up and that creation have completed there is 1 connection
    in [available] and 1 in [inUse].
    (3) Options [{minSize: 1, maxSize: 2}], after the warm-up: one
    [acquire] takes the pooled connection; two more are called before
    either has got its connection, both find [inUse.size = 1 < 2] and
    both create one, which leaves 3 connections in [inUse]. *)
Theorem C3_pool_holds_more_than_maxSize :
  let c := mock_connection in
  let all := fun _ : nat => Returned c in
  let one :=
    interleave (started (Some 0%nat) (Some 1%nat) Ledger.empty) [WarmedUp all] in
  let two :=
    interleave (started (Some 1%nat) (Some 1%nat) Ledger.empty)
      [AcquireCalled "conn_1"; WarmedUp all; Created "conn_1" (Returned c)] in
  let three :=
    interleave (started (Some 1%nat) (Some 2%nat) Ledger.empty)
      [WarmedUp all; AcquireCalled "conn_1";
       AcquireCalled "conn_2"; AcquireCalled "conn_3";
       Created "conn_2" (Returned c); Created "conn_3" (Returned c)] in
  census <$> one = Some {| in_available := 2; in_use := 0; at_most := 1 |}
  /\ census <$> two = Some {| in_available := 1; in_use := 1; at_most := 1 |}
  /\ census <$> three = Some {| in_available := 0; in_use := 3; at_most := 2 |}
  /\ within <$> (census <$> one) = Some false
  /\ within <$> (census <$> two) = Some false
  /\ within <$> (census <$> three) = Some false.
Proof. vm_compute. repeat split; reflexivity. Qed.

End PoolFacts.

Module MetricsFacts.
Import Metrics.

Section WithComparator.
Context {Value : Type}.
Variable render : Value -> string.
Variable localeCompare : string -> string -> Z.

(** [localeCompare] is a consistent comparator: any two names are
    ordered one way or the other, and the order is transitive. *)
Hypothesis localeCompare_total :
  forall a b, localeCompare a b <= 0 \/ localeCompare b a <= 0.
Hypothesis localeCompare_trans :
  forall a b c,
    localeCompare a b <= 0 -> localeCompare b c <= 0 -> localeCompare a c <= 0.

#[local] Instance entry_le_trans : Transitive (entry_le (Value := Value) localeCompare).
Proof. intros x y z. unfold entry_le. apply localeCompare_trans. Qed.

Lemma insert_entry_perm x (l : list (string * Value)) :
  insert_entry localeCompare x l ≡ₚ x :: l.
Proof.
  induction l as [|y l IH]; simpl; [reflexivity|].
  destruct (0 <? localeCompare x.1 y.1); [|reflexivity].
  rewrite IH. apply Permutation_swap.
Qed.

Lemma sort_entries_perm (l : list (string * Value)) : sort_entries localeCompare l ≡ₚ l.
Proof.
  induction l as [|x l IH]; simpl; [reflexivity|].
  rewrite insert_entry_perm. by rewrite IH.
Qed.

Lemma insert_entry_sorted x (l : list (string * Value)) :
  Sorted (entry_le localeCompare) l ->
  Sorted (entry_le localeCompare) (insert_entry localeCompare x l).
Proof.
  induction 1 as [|y l Hl IH Hy]; simpl.
  - repeat constructor.
  - destruct (Z.ltb_spec 0 (localeCompare x.1 y.1)) as [Hgt|Hle].
    + constructor; [exact IH|].
      assert (Hyx : entry_le localeCompare y x).
      { unfold entry_le. destruct (localeCompare_total x.1 y.1); [lia | assumption]. }
      destruct Hy as [|z l' Hyz]; simpl.
      * by constructor.
      * destruct (0 <? localeCompare x.1 z.1); by constructor.
    + constructor; [by constructor|]. by constructor.
Qed.

Lemma sort_entries_sorted (l : list (string * Value)) :
  Sorted (entry_le localeCompare) (sort_entries localeCompare l).
Proof.
  induction l as [|x l IH]; simpl; [constructor|].
  by apply insert_entry_sorted.
Qed.

(** Two enumerations of one tag record sort to the same list, provided
    no two different names of the record tie under the comparator. *)
Lemma sort_entries_unique (tags1 tags2 : list (string * Value)) :
  NoDup tags1.*1 ->
  tags1 ≡ₚ tags2 ->
  (forall k1 k2, k1 ∈ tags1.*1 -> k2 ∈ tags1.*1 ->
     localeCompare k1 k2 <= 0 -> localeCompare k2 k1 <= 0 -> k1 = k2) ->
  sort_entries localeCompare tags1 = sort_entries localeCompare tags2.
Proof.
  intros Hnd Hp Htie.
  apply (Sorted_unique_strong (entry_le localeCompare)).
  - intros [k1 v1] [k2 v2] H1 H2 H12 H21.
    rewrite sort_entries_perm in H1. rewrite sort_entries_perm, <- Hp in H2.
    assert (k1 = k2) as <-.
    { apply Htie; [| |exact H12|exact H21].
      - apply list_elem_of_fmap. by exists (k1, v1).
      - apply list_elem_of_fmap. by exists (k2, v2). }
    f_equal.
    apply list_elem_of_lookup in H1 as [i Hi], H2 as [j Hj].
    assert (i = j) as <-.
    { apply (NoDup_lookup tags1.*1 i j k1); [exact Hnd| |];
        rewrite list_lookup_fmap; [by rewrite Hi | by rewrite Hj]. }
    congruence.
  - apply sort_entries_sorted.
  - apply sort_entries_sorted.
  - by rewrite !sort_entries_perm.
Qed.

Lemma getKey_unique name (tags1 tags2 : list (string * Value)) :
  NoDup tags1.*1 ->
  tags1 ≡ₚ tags2 ->
  (forall k1 k2, k1 ∈ tags1.*1 -> k2 ∈ tags1.*1 ->
     localeCompare k1 k2 <= 0 -> localeCompare k2 k1 <= 0 -> k1 = k2) ->
  getKey render localeCompare name (Some tags1)
  = getKey render localeCompare name (Some tags2).
Proof.
  intros Hnd Hp Htie.
  pose proof (sort_entries_unique tags1 tags2 Hnd Hp Htie) as Hs.
  destruct tags1 as [|x1 t1], tags2 as [|x2 t2].
  - reflexivity.
  - by apply Permutation_nil_cons in Hp.
  - symmetry in Hp. by apply Permutation_nil_cons in Hp.
  - unfold getKey. by rewrite Hs.
Qed.

Lemma sort_entries_nil (l : list (string * Value)) :
  sort_entries localeCompare l = [] -> l = [].
Proof.
  intros H. apply Permutation_nil_r. rewrite <- H.
  symmetry. apply sort_entries_perm.
Qed.

(** The key is the name followed by the entries in ascending order of
    their names. *)
Lemma getKey_sorted name (tags : list (string * Value)) :
  exists sorted,
    sorted ≡ₚ tags
    /\ Sorted (entry_le localeCompare) sorted
    /\ getKey render localeCompare name (Some tags)
       = match sorted with
         | [] => name
         | _ => name +:+ "{"
                  +:+ String.concat ","
                        ((fun '(k, v) => k +:+ ":" +:+ render v) <$> sorted)
                  +:+ "}"
         end.
Proof.
  exists (sort_entries localeCompare tags).
  split; [apply sort_entries_perm|]. split; [apply sort_entries_sorted|].
  destruct tags as [|x t]; [reflexivity|].
  destruct (sort_entries localeCompare (x :: t)) eqn:E; [|by rewrite <- E].
  by apply sort_entries_nil in E.
Qed.

Lemma last_histogram (old : list number) (v : number) :
  let values := old ++ [v] in
  last (if (1000 <? length values)%nat then tail values else values) = Some v.
Proof.
  cbv zeta. destruct (Nat.ltb_spec 1000 (length (old ++ [v]))) as [H|H].
  - destruct old as [|x old]; simpl in *; [lia|]. apply last_snoc.
  - apply last_snoc.
Qed.

(** C10.  For every metric name and any two enumerations of one tag
    record (the same name-value pairs in a different order), in which no
    two different tag names tie under [localeCompare], [getKey] builds
    the same key; hence [increment], [gauge], [histogram] and
    [recordOperation] update the same entry and leave the same
    collector, and [getOperationStats] answers the same for both.  The
    key is the metric name followed by the entries in ascending order
    of their names; and what is written with one enumeration is read
    under the key of the other: the counter is raised by the value, the
    gauge is set, the value is the last of the histogram, and the
    statistics count one more operation and its duration. *)
Theorem C10_metric_keys_ignore_tag_order
    (name : string) (tags1 tags2 : list (string * Value)) :
  NoDup tags1.*1 ->
  tags1 ≡ₚ tags2 ->
  (forall k1 k2, k1 ∈ tags1.*1 -> k2 ∈ tags1.*1 ->
     localeCompare k1 k2 <= 0 -> localeCompare k2 k1 <= 0 -> k1 = k2) ->
  getKey render localeCompare name (Some tags1)
  = getKey render localeCompare name (Some tags2)
  /\ (forall v c,
        increment render localeCompare name v (Some tags1) c
        = increment render localeCompare name v (Some tags2) c)
  /\ (forall v c,
        gauge render localeCompare name v (Some tags1) c
        = gauge render localeCompare name v (Some tags2) c)
  /\ (forall v c,
        histogram render localeCompare name v (Some tags1) c
        = histogram render localeCompare name v (Some tags2) c)
  /\ (forall d e c,
        recordOperation render localeCompare name d e (Some tags1) c
        = recordOperation render localeCompare name d e (Some tags2) c)
  /\ (forall c,
        getOperationStats render localeCompare name (Some tags1) c
        = getOperationStats render localeCompare name (Some tags2) c)
  /\ (exists sorted,
        sorted ≡ₚ tags1
        /\ Sorted (entry_le localeCompare) sorted
        /\ getKey render localeCompare name (Some tags2)
           = match sorted with
             | [] => name
             | _ => name +:+ "{"
                      +:+ String.concat ","
                            ((fun '(k, v) => k +:+ ":" +:+ render v) <$> sorted)
                      +:+ "}"
             end)
  /\ (forall v c,
        counters (increment render localeCompare name v (Some tags1) c)
          !! getKey render localeCompare name (Some tags2)
        = Some (PrimFloat.add
                  (or_zero (counters c !! getKey render localeCompare name (Some tags2)))
                  (default 1%float v)))
  /\ (forall v c,
        gauges (gauge render localeCompare name v (Some tags1) c)
          !! getKey render localeCompare name (Some tags2)
        = Some v)
  /\ (forall v c,
        exists values,
          histograms (histogram render localeCompare name v (Some tags1) c)
            !! getKey render localeCompare name (Some tags2)
          = Some values
          /\ last values = Some v)
  /\ (forall d e c,
        exists view,
          getOperationStats render localeCompare name (Some tags2)
            (recordOperation render localeCompare name d e (Some tags1) c)
          = Some view
          /\ count (stats view)
             = PrimFloat.add
                 (match operationStats c
                          !! getKey render localeCompare name (Some tags2) with
                  | Some st => count st
                  | None => 0%float
                  end) 1
          /\ totalTime (stats view)
             = PrimFloat.add
                 (match operationStats c
                          !! getKey render localeCompare name (Some tags2) with
                  | Some st => totalTime st
                  | None => 0%float
                  end) d).
Proof.
  intros Hnd Hp Htie.
  pose proof (getKey_unique name tags1 tags2 Hnd Hp Htie) as Hk.
  split; [exact Hk|].
  split; [intros v c; unfold increment; by rewrite Hk|].
  split; [intros v c; unfold gauge; by rewrite Hk|].
  split; [intros v c; unfold histogram; by rewrite Hk|].
  split; [intros d e c; unfold recordOperation; by rewrite Hk|].
  split; [intros c; unfold getOperationStats; by rewrite Hk|].
  split; [rewrite <- Hk; apply getKey_sorted|].
  rewrite <- Hk.
  split; [intros v c; unfold increment; simpl; by rewrite lookup_insert_eq|].
  split; [intros v c; unfold gauge; simpl; by rewrite lookup_insert_eq|].
  split.
  - intros v c. eexists. unfold histogram. simpl. rewrite lookup_insert_eq.
    split; [reflexivity | apply last_histogram].
  - intros d e c. unfold getOperationStats, recordOperation. cbv zeta.
    rewrite <- Hk.
    generalize (getKey render localeCompare name (Some tags1)). intros key.
    cbn [operationStats]. eexists. rewrite lookup_insert_eq.
    split; [reflexivity|]. cbn [stats count totalTime].
    destruct (operationStats c !! key); split; reflexivity.
Qed.

End WithComparator.

Lemma by_encoding_total a b : by_encoding a b <= 0 \/ by_encoding b a <= 0.
Proof. unfold by_encoding. lia. Qed.

Lemma by_encoding_trans a b c :
  by_encoding a b <= 0 -> by_encoding b c <= 0 -> by_encoding a c <= 0.
Proof. unfold by_encoding. lia. Qed.

Lemma by_encoding_tie a b :
  by_encoding a b <= 0 -> by_encoding b a <= 0 -> a = b.
Proof.
  unfold by_encoding. intros H1 H2.
  apply (inj encode). lia.
Qed.

Lemma C10_witness :
  let tags1 := [("method", "GET"); ("path", "/health")] in
  let tags2 := [("path", "/health"); ("method", "GET")] in
  let c := recordOperation id by_encoding "http.request" 30%float None
             (Some tags2) empty in
  recordOperation id by_encoding "http.request" 12%float None (Some tags1) c
  = recordOperation id by_encoding "http.request" 12%float None (Some tags2) c.
Proof.
  intros tags1 tags2 c.
  refine (proj1 (proj2 (proj2 (proj2 (proj2
    (C10_metric_keys_ignore_tag_order id by_encoding
       by_encoding_total by_encoding_trans "http.request" tags1 tags2 _ _ _)))))
    12%float None c).
  - apply (bool_decide_unpack _). vm_compute. reflexivity.
  - apply Permutation_swap.
  - intros k1 k2 _ _. apply by_encoding_tie.
Defined.

(** The comparator of the example is a consistent comparator. *)
Lemma canonical_compare_consistent :
  (forall a b, canonical_compare a b <= 0 \/ canonical_compare b a <= 0)
  /\ (forall a b c, canonical_compare a b <= 0 -> canonical_compare b c <= 0 ->
        canonical_compare a c <= 0).
Proof.
  unfold canonical_compare. split.
  - intros a b. apply by_encoding_total.
  - intros a b c. apply by_encoding_trans.
Qed.

(** C10 (evaluation of the code where the claim fails).  A tag record
    with the two spellings of one name as its tag names: the comparator
    returns 0 on them, the stable sort leaves the entries in the order
    of insertion, and the two enumerations of the record get two keys.
    Incrementing the counter once with each enumeration makes two
    counters, and what [recordOperation] records with one enumeration
    [getOperationStats] does not find with the other. *)
Lemma C10_tied_tag_names_give_two_keys :
  let tags1 := [(e_acute, "1"); (e_combining_acute, "2")] in
  let tags2 := [(e_combining_acute, "2"); (e_acute, "1")] in
  let c := increment id canonical_compare "hits" None (Some tags2)
             (increment id canonical_compare "hits" None (Some tags1) empty) in
  tags1 ≡ₚ tags2
  /\ NoDup tags1.*1
  /\ canonical_compare e_acute e_combining_acute = 0
  /\ canonical_compare e_combining_acute e_acute = 0
  /\ getKey id canonical_compare "hits" (Some tags1)
     <> getKey id canonical_compare "hits" (Some tags2)
  /\ size (counters c) = 2%nat
  /\ getOperationStats id canonical_compare "hits" (Some tags2)
       (recordOperation id canonical_compare "hits" 12%float None (Some tags1)
          empty)
     = None.
Proof.
  intros tags1 tags2 c.
  split; [apply Permutation_swap|].
  split; [apply (bool_decide_unpack _); vm_compute; reflexivity|].
  split; [vm_compute; reflexivity|].
  split; [vm_compute; reflexivity|].
  split; [vm_compute; discriminate|].
  split; vm_compute; reflexivity.
Qed.

End MetricsFacts.

(** *** Further properties of the circuit breaker and of retry *)

Module ResilienceExtra.
Import Errors Retry Breaker Resilience BreakerFacts RetryFacts.

Lemma run_app {V} o (cs1 cs2 : list (Call V)) : forall b log,
  run o b log (cs1 ++ cs2)
  = run o (run o b log cs1).1 (run o b log cs1).2 cs2.
Proof.
  induction cs1 as [|c cs1 IH]; intros b log; simpl; [reflexivity|].
  destruct (call o b c) as [b' r]. apply IH.
Qed.

Lemma closed_failure {V} o b (c : Call V) :
  state b = closed -> fails c ->
  failures (call o b c).1 = failures b + 1
  /\ state (call o b c).1
     = (if bool_decide (failures b + 1 >= threshold o) then open else closed)
  /\ lastFailureTime (call o b c).1 = catch_now c
  /\ invoked (call o b c).2 = true.
Proof.
  intros Hs Hf. unfold call.
  rewrite maybe_reset_not_open_id by (rewrite Hs; discriminate).
  rewrite bool_decide_eq_false_2 by (rewrite Hs; discriminate).
  unfold fails in Hf.
  destruct (race c); [destruct Hf | |]; simpl; rewrite Hs; auto.
Qed.

Lemma failures_below_threshold {V} o (cs : list (Call V)) : forall b log,
  state b = closed ->
  Forall fails cs ->
  Forall (fun r => invoked r = true) log ->
  failures b + Z.of_nat (length cs) < threshold o ->
  state (run o b log cs).1 = closed
  /\ failures (run o b log cs).1 = failures b + Z.of_nat (length cs)
  /\ Forall (fun r => invoked r = true) (run o b log cs).2.
Proof.
  induction cs as [|c cs IH]; intros b log Hs Hf Hlog Hlt; simpl.
  - repeat split; [exact Hs | lia | exact Hlog].
  - inversion Hf as [|? ? Hc Hcs]; subst.
    destruct (closed_failure o b c Hs Hc) as (Hfa & Hst & _ & Hin).
    simpl length in Hlt.
    rewrite bool_decide_eq_false_2 in Hst by lia.
    destruct (call o b c) as [b' r]. simpl in *.
    destruct (IH b' (r :: log) Hst Hcs) as (H1 & H2 & H3).
    + by constructor.
    + lia.
    + repeat split; [exact H1 | lia | exact H3].
Qed.

(** X1.  A new breaker with [threshold >= 1] runs the wrapped function
    on each of the first [threshold] calls when they all fail, stays
    closed until the last of them, and is open with [failures =
    threshold] after it. *)
Theorem X1_breaker_opens_after_threshold_failures
    {V} (o : Breaker.Options) (cs : list (Call V)) (c : Call V) :
  1 <= threshold o ->
  Z.of_nat (length cs) + 1 = threshold o ->
  Forall fails cs -> fails c ->
  state (run o initial [] cs).1 = closed
  /\ state (run o initial [] (cs ++ [c])).1 = open
  /\ failures (run o initial [] (cs ++ [c])).1 = threshold o
  /\ lastFailureTime (run o initial [] (cs ++ [c])).1 = catch_now c
  /\ Forall (fun r => invoked r = true) (run o initial [] (cs ++ [c])).2.
Proof.
  intros Ht Hlen Hcs Hc.
  destruct (failures_below_threshold o cs initial [] eq_refl Hcs)
    as (Hs & Hf & Hlog); [constructor | simpl; lia |].
  split; [exact Hs|].
  rewrite run_app.
  destruct (run o initial [] cs) as [b log]. simpl in *.
  destruct (closed_failure o b c Hs Hc) as (Hfa & Hst & Hla & Hin).
  rewrite bool_decide_eq_true_2 in Hst by lia.
  destruct (call o b c) as [b' r]. simpl in *.
  repeat split; [exact Hst | lia | exact Hla |].
  by constructor.
Qed.

Lemma X1_witness :
  let o := Breaker.defaults (Breaker.mkRaw None None None) in
  let boom := fun t => mkCall (V := Z) t (Rejects (mkError PlainError "boom")) t in
  state (run o initial [] ([boom 1; boom 2; boom 3; boom 4] ++ [boom 5])).1 = open.
Proof.
  intros o boom.
  refine (proj1 (proj2 (X1_breaker_opens_after_threshold_failures
                          o [boom 1; boom 2; boom 3; boom 4] (boom 5) _ _ _ _))).
  - vm_compute. discriminate.
  - reflexivity.
  - repeat constructor.
  - exact I.
Defined.

(** X2.  An open breaker turns a call away, without running the wrapped
    function and without changing its own state, exactly when no more
    than [resetTimeout] has passed since the last failure; at exactly
    [resetTimeout] the call is still turned away.  Once more time has
    passed the wrapped function is run. *)
Theorem X2_open_breaker_rejects_within_reset_timeout
    {V} (o : Breaker.Options) (b : Breaker) (c : Call V) :
  state b = open ->
  (entry_now c - lastFailureTime b <= resetTimeout o ->
     call o b c
     = (b, mkReport (Thrown (mkError PlainError "Circuit breaker is open")) false))
  /\ (entry_now c - lastFailureTime b > resetTimeout o ->
       invoked (call o b c).2 = true).
Proof.
  intros Hs. split; intros Ht.
  - apply call_open_rejects. unfold maybe_reset.
    rewrite (bool_decide_eq_true_2 _ Hs).
    rewrite bool_decide_eq_false_2 by lia. exact Hs.
  - unfold call, maybe_reset.
    rewrite (bool_decide_eq_true_2 _ Hs).
    rewrite (bool_decide_eq_true_2 _ Ht). simpl.
    destruct (race c); reflexivity.
Qed.

Lemma X2_witness :
  let o := Breaker.defaults (Breaker.mkRaw (Some 2) None None) in
  let b := {| failures := 2; lastFailureTime := 1000; state := open |} in
  call o b (mkCall 31000 (Fulfils 7%Z) 31000)
  = (b, mkReport (Thrown (mkError PlainError "Circuit breaker is open")) false).
Proof.
  intros o b.
  apply (proj1 (X2_open_breaker_rejects_within_reset_timeout
                  o b (mkCall 31000 (Fulfils 7%Z) 31000) eq_refl)).
  vm_compute. discriminate.
Defined.

(** X3.  The error with which the breaker reports a timeout is one
    [retry] retries, whereas the rejection of an open breaker is not:
    [retry] around a breaker that is open and inside its reset timeout
    gives up after a single attempt, with that rejection, whatever
    [maxAttempts >= 2] allows. *)
Theorem X3_retry_does_not_retry_an_open_breaker
    {V} (bo : Breaker.Options) (b : Breaker) (calls : nat -> Call V)
    (onRetry : option (JsError -> Z -> option JsError)) (ro : Retry.Options) :
  state b = open ->
  entry_now (calls 0%nat) - lastFailureTime b <= resetTimeout bo ->
  2 <= maxAttempts ro ->
  (forall operation timeoutMs,
      shouldRetry (newTimeoutError operation timeoutMs) = true)
  /\ retry (guarded bo b calls) onRetry ro
     = (RejectedWith (mkError PlainError "Circuit breaker is open"), [Invoked 0])
  /\ invoked (call bo b (calls 0%nat)).2 = false.
Proof.
  intros Hs Ht Hm.
  assert (Hcall : call bo b (calls 0%nat)
                  = (b, mkReport (Thrown (mkError PlainError "Circuit breaker is open"))
                                 false)).
  { apply call_open_rejects. unfold maybe_reset.
    rewrite (bool_decide_eq_true_2 _ Hs).
    rewrite bool_decide_eq_false_2 by lia. exact Hs. }
  split; [|split].
  - intros operation timeoutMs. unfold shouldRetry.
    destruct (_ || _ || _); reflexivity.
  - unfold retry.
    destruct (Z.to_nat (maxAttempts ro)) as [|fuel] eqn:Hf; [lia|].
    simpl. unfold guarded. simpl. rewrite Hcall. simpl.
    rewrite bool_decide_eq_false_2 by lia. reflexivity.
  - rewrite Hcall. reflexivity.
Qed.

Lemma X3_witness :
  let bo := Breaker.defaults (Breaker.mkRaw (Some 2) None None) in
  let b := {| failures := 2; lastFailureTime := 1000; state := open |} in
  let calls := fun k : nat => mkCall (Z.of_nat k + 2000) (Fulfils 7%Z) 0 in
  retry (guarded bo b calls) None (Retry.defaults (Retry.mkRaw None None None None))
  = (RejectedWith (mkError PlainError "Circuit breaker is open"), [Invoked 0]).
Proof.
  intros bo b calls.
  refine (proj1 (proj2 (X3_retry_does_not_retry_an_open_breaker
                          bo b calls None _ eq_refl _ _))).
  - vm_compute. discriminate.
  - vm_compute. discriminate.
Defined.

End ResilienceExtra.

Module RetryExtra.
Import Errors Retry.

Lemma count_app p (l1 l2 : list Event) :
  Retry.count p (l1 ++ l2) = (Retry.count p l1 + Retry.count p l2)%nat.
Proof. unfold Retry.count. by rewrite List.filter_app, length_app. Qed.

Section WithOperation.
Context {V : Type}.
Variable operation : nat -> Result V.
Variable onRetry : option (JsError -> Z -> option JsError).
Variable o : Options.

(** The loop never runs the operation more often than it has
    iterations left, and it waits only between two iterations. *)
Lemma attempts_bounds (fuel : nat) : forall attempt k last tr,
  Z.of_nat fuel + attempt - 1 = maxAttempts o \/ fuel = 0%nat ->
  (Retry.count is_invocation (attempts operation onRetry o fuel attempt k last tr).2
   <= Retry.count is_invocation tr + fuel)%nat
  /\ (Retry.count is_sleep (attempts operation onRetry o fuel attempt k last tr).2
      <= Retry.count is_sleep tr + (fuel - 1))%nat
  /\ (Retry.count is_onRetry (attempts operation onRetry o fuel attempt k last tr).2
      <= Retry.count is_onRetry tr + (fuel - 1))%nat.
Proof.
  induction fuel as [|fuel IH]; intros attempt k last tr Hrel; simpl.
  - lia.
  - destruct Hrel as [Hrel|Hrel]; [|discriminate Hrel].
    destruct (operation k) as [v|e]; simpl.
    { rewrite !count_app. cbn. lia. }
    case_bool_decide as Hlast; simpl.
    { rewrite !count_app. cbn. lia. }
    destruct (shouldRetry e); simpl.
    2: { rewrite !count_app. cbn. lia. }
    assert (Hfuel : (1 <= fuel)%nat) by lia.
    assert (Hrel' : Z.of_nat fuel + (attempt + 1) - 1 = maxAttempts o
                    \/ fuel = 0%nat) by lia.
    destruct onRetry as [cb|].
    + destruct (cb e attempt) as [e'|].
      * simpl. rewrite !count_app. cbn. lia.
      * destruct (IH (attempt + 1) (S k) (Some e)
                    ((tr ++ [Invoked k])
                       ++ [OnRetry e attempt; Slept (backoff o attempt)]) Hrel')
          as (H1 & H2 & H3).
        rewrite !count_app in H1, H2, H3. cbn in H1, H2, H3. lia.
    + destruct (IH (attempt + 1) (S k) (Some e)
                  ((tr ++ [Invoked k]) ++ [Slept (backoff o attempt)]) Hrel')
        as (H1 & H2 & H3).
      rewrite !count_app in H1, H2, H3. cbn in H1, H2, H3. lia.
Qed.

(** X5.  Whatever the operation and the callback do, [retry] runs the
    operation at most [maxAttempts] times (not at all when [maxAttempts]
    is below 1), and waits and calls [onRetry] at most [maxAttempts - 1]
    times. *)
Theorem X5_retry_attempts_are_bounded :
  (Retry.count is_invocation (retry operation onRetry o).2
   <= Z.to_nat (maxAttempts o))%nat
  /\ (Retry.count is_sleep (retry operation onRetry o).2
      <= Z.to_nat (maxAttempts o) - 1)%nat
  /\ (Retry.count is_onRetry (retry operation onRetry o).2
      <= Z.to_nat (maxAttempts o) - 1)%nat.
Proof.
  unfold retry.
  destruct (attempts_bounds (Z.to_nat (maxAttempts o)) 1 0%nat None []) as (H1 & H2 & H3).
  - destruct (Z.to_nat (maxAttempts o)) eqn:E; [by right | left; lia].
  - cbn in H1, H2, H3. lia.
Qed.

Lemma attempts_sleeps (fuel : nat) : forall attempt k last tr,
  Forall (sleep_within o) tr ->
  Forall (sleep_within o) (attempts operation onRetry o fuel attempt k last tr).2.
Proof.
  induction fuel as [|fuel IH]; intros attempt k last tr Htr; simpl; [exact Htr|].
  assert (H1 : Forall (sleep_within o) (tr ++ [Invoked k])).
  { apply Forall_app. split; [exact Htr | repeat constructor]. }
  assert (Hb : backoff o attempt <= maxDelay o) by apply Z.le_min_r.
  destruct (operation k) as [v|e]; simpl; [exact H1|].
  case_bool_decide; simpl; [exact H1|].
  destruct (shouldRetry e); simpl; [|exact H1].
  destruct onRetry as [cb|].
  - destruct (cb e attempt) as [e'|]; simpl.
    + apply Forall_app. split; [exact H1 | repeat constructor].
    + apply IH. apply Forall_app. split; [exact H1 | repeat constructor; exact Hb].
  - apply IH. apply Forall_app. split; [exact H1 | repeat constructor; exact Hb].
Qed.

(** X6.  Every wait [retry] makes lasts at most [maxDelay]. *)
Theorem X6_retry_waits_at_most_maxDelay :
  Forall (sleep_within o) (retry operation onRetry o).2.
Proof. apply attempts_sleeps. constructor. Qed.

Lemma attempts_defined (fuel : nat) : forall attempt k last tr,
  (fuel <> 0%nat \/ last <> None) ->
  (attempts operation onRetry o fuel attempt k last tr).1 <> RejectedUndefined.
Proof.
  induction fuel as [|fuel IH]; intros attempt k last tr H; simpl.
  - destruct H as [H|H]; [by destruct H|].
    destruct last; [discriminate | by destruct H].
  - destruct (operation k) as [v|e]; simpl; [discriminate|].
    case_bool_decide; simpl; [discriminate|].
    destruct (shouldRetry e); simpl; [|discriminate].
    destruct onRetry as [cb|].
    + destruct (cb e attempt); simpl; [discriminate|].
      apply IH. right. discriminate.
    + apply IH. right. discriminate.
Qed.

(** X7.  The promise of [retry] rejects with [undefined] exactly when
    [maxAttempts] is below 1, and then the operation is never run. *)
Theorem X7_retry_rejects_with_undefined_iff_no_attempt_is_allowed :
  ((retry operation onRetry o).1 = RejectedUndefined <-> maxAttempts o < 1)
  /\ (maxAttempts o < 1 -> (retry operation onRetry o).2 = []).
Proof.
  unfold retry. split; [split|].
  - intros H. destruct (Z.to_nat (maxAttempts o)) eqn:E; [lia|].
    exfalso. revert H. apply attempts_defined. left. discriminate.
  - intros H. replace (Z.to_nat (maxAttempts o)) with 0%nat by lia. reflexivity.
  - intros H. replace (Z.to_nat (maxAttempts o)) with 0%nat by lia. reflexivity.
Qed.

Variable err : nat -> JsError.

Lemma attempts_exhaust (fuel : nat) : forall attempt k last tr,
  Z.of_nat (S fuel) + attempt - 1 = maxAttempts o ->
  (forall j, (j <= fuel)%nat -> operation (k + j)%nat = Thrown (err (k + j))) ->
  (forall j, (j < fuel)%nat -> shouldRetry (err (k + j)) = true) ->
  (forall cb e a, onRetry = Some cb -> cb e a = None) ->
  let r := attempts operation onRetry o (S fuel) attempt k last tr in
  r.1 = RejectedWith (err (k + fuel))
  /\ Retry.count is_invocation r.2 = (Retry.count is_invocation tr + S fuel)%nat
  /\ Retry.count is_sleep r.2 = (Retry.count is_sleep tr + fuel)%nat
  /\ Retry.count is_onRetry r.2
     = (Retry.count is_onRetry tr
        + match onRetry with Some _ => fuel | None => 0 end)%nat.
Proof.
  induction fuel as [|fuel IH]; intros attempt k last tr Hrel Hop Hre Hcb;
    cbv zeta in *.
  - pose proof (Hop 0%nat (Nat.le_refl _)) as Hk. rewrite Nat.add_0_r in *.
    cbn [attempts]. rewrite Hk.
    rewrite bool_decide_eq_true_2 by lia. simpl.
    rewrite !count_app. cbn. destruct onRetry; repeat split; lia.
  - pose proof (Hop 0%nat (Nat.le_0_l _)) as Hk.
    pose proof (Hre 0%nat (Nat.lt_0_succ _)) as Hr.
    rewrite Nat.add_0_r in Hk, Hr.
    cbn [attempts]. fold (attempts operation onRetry o).
    rewrite Hk.
    rewrite bool_decide_eq_false_2 by lia.
    rewrite Hr. cbn [negb].
    assert (Hrel' : Z.of_nat (S fuel) + (attempt + 1) - 1 = maxAttempts o) by lia.
    assert (Hop' : forall j, (j <= fuel)%nat ->
                     operation (S k + j)%nat = Thrown (err (S k + j))).
    { intros j Hj. replace (S k + j)%nat with (k + S j)%nat by lia.
      apply Hop. lia. }
    assert (Hre' : forall j, (j < fuel)%nat -> shouldRetry (err (S k + j)) = true).
    { intros j Hj. replace (S k + j)%nat with (k + S j)%nat by lia.
      apply Hre. lia. }
    replace (k + S fuel)%nat with (S k + fuel)%nat by lia.
    destruct onRetry as [cb|] eqn:Hon.
    + rewrite (Hcb cb (err k) attempt eq_refl).
      destruct (IH (attempt + 1) (S k) (Some (err k))
                  ((tr ++ [Invoked k])
                     ++ [OnRetry (err k) attempt; Slept (backoff o attempt)])
                  Hrel' Hop' Hre' Hcb) as (H1 & H2 & H3 & H4).
      rewrite !count_app in H2, H3, H4. cbn in H2, H3, H4.
      repeat split; [exact H1 | lia | lia | lia].
    + destruct (IH (attempt + 1) (S k) (Some (err k))
                  ((tr ++ [Invoked k]) ++ [Slept (backoff o attempt)])
                  Hrel' Hop' Hre' Hcb) as (H1 & H2 & H3 & H4).
      rewrite !count_app in H2, H3, H4. cbn in H2, H3, H4.
      repeat split; [exact H1 | lia | lia | lia].
Qed.

(** X4.  When every one of the [maxAttempts >= 1] invocations throws,
    the errors before the last being retryable and [onRetry] returning
    normally, [retry] rejects with the error of the last invocation
    after exactly [maxAttempts] invocations, [maxAttempts - 1] waits and
    (when a callback is given) [maxAttempts - 1] calls of it; the last
    error need not be retryable. *)
Theorem X4_retry_exhausted_rethrows_the_last_error (n : nat) :
  maxAttempts o = Z.of_nat (S n) ->
  (forall j, (j <= n)%nat -> operation j = Thrown (err j)) ->
  (forall j, (j < n)%nat -> shouldRetry (err j) = true) ->
  (forall cb e a, onRetry = Some cb -> cb e a = None) ->
  (retry operation onRetry o).1 = RejectedWith (err n)
  /\ Retry.count is_invocation (retry operation onRetry o).2 = S n
  /\ Retry.count is_sleep (retry operation onRetry o).2 = n
  /\ Retry.count is_onRetry (retry operation onRetry o).2
     = match onRetry with Some _ => n | None => 0%nat end.
Proof.
  intros Hm Hop Hre Hcb. unfold retry. rewrite Hm, Nat2Z.id.
  destruct (attempts_exhaust n 1 0%nat None []) as (H1 & H2 & H3 & H4);
    try assumption; try lia.
  cbn in H2, H3, H4. repeat split; assumption.
Qed.

End WithOperation.

Lemma X4_witness :
  let err := fun k : nat => newTimeoutError "query" (Z.of_nat k) in
  (retry (V := Z) (fun k => Thrown (err k)) (Some (fun _ _ => None))
         (Retry.defaults (Retry.mkRaw None None None None))).1
  = RejectedWith (err 2%nat).
Proof.
  intros err.
  refine (proj1 (X4_retry_exhausted_rethrows_the_last_error
                   (fun k => Thrown (err k)) (Some (fun _ _ => None))
                   (Retry.defaults (Retry.mkRaw None None None None))
                   err 2 eq_refl _ _ _)).
  - reflexivity.
  - intros j _. unfold shouldRetry. destruct (_ || _ || _); reflexivity.
  - intros cb e a H. injection H as <-. reflexivity.
Defined.

Lemma X7_witness :
  (retry (V := Z) (fun _ => Returned 1) None
         (Retry.defaults (Retry.mkRaw (Some 0) None None None))).2 = [].
Proof.
  apply (proj2 (X7_retry_rejects_with_undefined_iff_no_attempt_is_allowed
                  (V := Z) (fun _ => Returned 1) None
                  (Retry.defaults (Retry.mkRaw (Some 0) None None None)))).
  vm_compute. reflexivity.
Defined.

End RetryExtra.

(** *** Further properties of the resource manager *)

Module LedgerExtra.
Import Errors StateErr Ledger SizeFacts LedgerFacts.

Lemma unregister_absent k id l :
  entry k id l = None -> unregister k id l = (l, Returned tt).
Proof.
  destruct k; simpl; intros H; apply fmap_None in H.
  - unfold unregisterProcess, bind, get. by rewrite H.
  - unfold unregisterTimer, bind, get. by rewrite H.
  - rewrite unregisterConnection_returns. by rewrite H.
  - rewrite unregisterFileHandle_returns. by rewrite H.
Qed.

(** What [unregister] does to a registered resource. *)
Lemma unregister_present k id l r :
  entry k id l = Some r ->
  (releasable r ->
     (unregister k id l).2 = Returned tt /\ entry k id (unregister k id l).1 = None)
  /\ (~ releasable r -> (unregister k id l).1 = l).
Proof.
  destruct k; simpl; intros H; apply fmap_Some in H as (h & Hh & ->); simpl.
  - unfold unregisterProcess, bind, get. rewrite Hh.
    destruct (killed h) eqn:Hk; simpl.
    + split; [intros _; simpl; by rewrite lookup_delete_eq | intros []; by left].
    + destruct (kill h) eqn:Hkill; simpl.
      * split; [intros _; simpl; by rewrite lookup_delete_eq | intros []; by right].
      * split; [intros [?|?]; discriminate | reflexivity].
  - unfold unregisterTimer, bind, get. rewrite Hh. simpl.
    split; [intros _; by rewrite lookup_delete_eq | intros []; exact I].
  - rewrite unregisterConnection_returns, Hh. simpl.
    destruct (truthy h); simpl.
    + split; [intros _; by rewrite lookup_delete_eq | intros []; reflexivity].
    + split; [discriminate | reflexivity].
  - rewrite unregisterFileHandle_returns, Hh. simpl.
    destruct (truthy h); simpl.
    + split; [intros _; by rewrite lookup_delete_eq | intros []; reflexivity].
    + split; [discriminate | reflexivity].
Qed.

Lemma releasable_dec r : releasable r \/ ~ releasable r.
Proof.
  destruct r as [p|t|c|c]; simpl.
  - destruct (killed p); [by left; left|].
    destruct (kill p); [by left; right|].
    right. intros [?|?]; discriminate.
  - by left.
  - destruct (truthy c); [by left | right; discriminate].
  - destruct (truthy c); [by left | right; discriminate].
Qed.

(** X8.  Unregistering an identifier that is not registered in the map
    of its kind changes nothing and returns; and for every kind,
    unregistering twice leaves the ledger as unregistering once does. *)
Theorem X8_unregister_is_idempotent (k : Kind) (id : string) (l : Ledger) :
  (entry k id l = None -> unregister k id l = (l, Returned tt))
  /\ (unregister k id (unregister k id l).1).1 = (unregister k id l).1.
Proof.
  split; [apply unregister_absent|].
  destruct (entry k id l) as [r|] eqn:He.
  - destruct (unregister_present k id l r He) as [Hyes Hno].
    destruct (releasable_dec r) as [Hr|Hr].
    + destruct (Hyes Hr) as [_ Habs]. by rewrite (unregister_absent _ _ _ Habs).
    + rewrite (Hno Hr). exact (Hno Hr).
  - rewrite (unregister_absent _ _ _ He). simpl. by rewrite (unregister_absent _ _ _ He).
Qed.

Lemma X8_witness :
  unregister KTimer "t1" empty = (empty, Returned tt).
Proof.
  apply (proj1 (X8_unregister_is_idempotent KTimer "t1" empty)). reflexivity.
Defined.

Lemma register_below_cap id r l :
  (count (kind_of r) l < cap (kind_of r))%nat ->
  register id r l =
    (match r with
     | RProcess p => set_processes (insert id p) l
     | RTimer t => set_timers (insert id t) l
     | RConnection c => set_connections (insert id c) l
     | RFileHandle h => set_fileHandles (insert id h) l
     end, Returned tt).
Proof.
  intros H.
  destruct r; simpl in *;
    unfold registerProcess, registerTimer, registerConnection,
      registerFileHandle, bind, get;
    rewrite (proj2 (Nat.leb_gt _ _) H); reflexivity.
Qed.

(** X9.  Below the cap of its kind a register call returns, and
    afterwards the identifier maps to the registered resource; the
    count grows by one for a new identifier and stays the same when the
    identifier was already registered (its old resource is replaced
    without being torn down); every other entry is as before. *)
Theorem X9_register_below_cap_stores_the_resource
    (id : string) (r : Resource) (l : Ledger) :
  (count (kind_of r) l < cap (kind_of r))%nat ->
  let l' := (register id r l).1 in
  (register id r l).2 = Returned tt
  /\ entry (kind_of r) id l' = Some r
  /\ count (kind_of r) l'
     = match entry (kind_of r) id l with
       | Some _ => count (kind_of r) l
       | None => S (count (kind_of r) l)
       end
  /\ (forall k' id', (k' <> kind_of r \/ id' <> id) ->
        entry k' id' l' = entry k' id' l).
Proof.
  intros H l'. unfold l'. rewrite (register_below_cap id r l H).
  destruct r as [p|t|c|h]; simpl;
    (split; [reflexivity|]);
    (split; [by rewrite lookup_insert_eq|]);
    (split; [rewrite map_size_insert;
             match goal with
             | |- context [?m !! id] => destruct (m !! id); reflexivity
             end|]);
    intros k' id' [Hk|Hid]; destruct k'; simpl; try reflexivity;
      try (by destruct Hk); by rewrite lookup_insert_ne.
Qed.

Lemma X9_witness :
  entry KTimer "t1" (register "t1" (RTimer (mkTimer 7)) empty).1
  = Some (RTimer (mkTimer 7)).
Proof.
  refine (proj1 (proj2 (X9_register_below_cap_stores_the_resource
                          "t1" (RTimer (mkTimer 7)) empty _))).
  vm_compute. lia.
Defined.

(** X10.  Registering a releasable resource under a new identifier and
    then unregistering it gives back the ledger exactly as it was. *)
Theorem X10_register_then_unregister_restores_the_ledger
    (id : string) (r : Resource) (l : Ledger) :
  entry (kind_of r) id l = None ->
  (count (kind_of r) l < cap (kind_of r))%nat ->
  releasable r ->
  unregister (kind_of r) id (register id r l).1 = (l, Returned tt).
Proof.
  intros Hnew Hcap Hrel. rewrite (register_below_cap id r l Hcap).
  destruct r as [p|t|c|h]; simpl in *; apply fmap_None in Hnew.
  - unfold unregisterProcess, bind, get. simpl. rewrite lookup_insert_eq.
    assert (E : forall x : Result unit,
              (set_processes (delete id) (set_processes <[id:=p]> l), x) = (l, x)).
    { intros x. f_equal. destruct l. unfold set_processes. simpl in *. f_equal.
      by apply delete_insert_id. }
    destruct Hrel as [Hk|Hk]; rewrite Hk.
    + apply E.
    + destruct (killed p); apply E.
  - unfold unregisterTimer, bind, get. simpl. rewrite lookup_insert_eq.
    unfold modify. f_equal. destruct l. unfold set_timers. simpl in *. f_equal.
    by apply delete_insert_id.
  - rewrite unregisterConnection_returns. simpl. rewrite lookup_insert_eq, Hrel.
    f_equal. destruct l. unfold set_connections. simpl in *. f_equal.
    by apply delete_insert_id.
  - rewrite unregisterFileHandle_returns. simpl. rewrite lookup_insert_eq, Hrel.
    f_equal. destruct l. unfold set_fileHandles. simpl in *. f_equal.
    by apply delete_insert_id.
Qed.

Lemma X10_witness :
  let c := {| truthy := true; close := Some (Throws (mkError PlainError "gone"));
              end_ := None; disconnect := None |} in
  unregister KConnection "c1" (register "c1" (RConnection c) empty).1
  = (empty, Returned tt).
Proof.
  intros c.
  apply (X10_register_then_unregister_restores_the_ledger "c1" (RConnection c) empty).
  - reflexivity.
  - vm_compute. lia.
  - reflexivity.
Defined.

(** X11.  A registered resource that is not releasable stays
    registered when it is unregistered: a live process whose [kill]
    throws makes [unregisterProcess] throw that error before the entry
    is deleted, and a falsy connection or file handle is skipped
    silently.  Only [cleanup] removes such an entry. *)
Theorem X11_unregister_leaves_a_stuck_resource_registered
    (k : Kind) (id : string) (l : Ledger) (r : Resource) :
  entry k id l = Some r ->
  ~ releasable r ->
  (unregister k id l).1 = l
  /\ (unregister k id l).2
     = match r with
       | RProcess p =>
           match kill p with Throws e => Thrown e | Succeeds => Returned tt end
       | _ => Returned tt
       end
  /\ entry k id (cleanup l).1 = None.
Proof.
  intros He Hr.
  split; [exact (proj2 (unregister_present k id l r He) Hr)|].
  split.
  - destruct k; simpl in *; apply fmap_Some in He as (h & Hh & ->); simpl in *.
    + unfold unregisterProcess, bind, get. rewrite Hh.
      destruct (killed h); [destruct Hr; by left|].
      destruct (kill h); [destruct Hr; by right | reflexivity].
    + by destruct Hr.
    + by rewrite unregisterConnection_returns.
    + by rewrite unregisterFileHandle_returns.
  - rewrite cleanup_empties. by destruct k.
Qed.

Lemma X11_witness :
  let p := {| killed := false; kill := Throws (mkError PlainError "EPERM") |} in
  let l := (register "build" (RProcess p) empty).1 in
  (unregister KProcess "build" l).1 = l.
Proof.
  intros p l.
  refine (proj1 (X11_unregister_leaves_a_stuck_resource_registered
                   KProcess "build" l (RProcess p) _ _)).
  - reflexivity.
  - intros [H|H]; discriminate H.
Defined.

(** X12.  [withResource] at the cap of the kind throws the cap error
    without running [fn] or touching the ledger.  Below the cap it runs
    [fn]; if the resource then found under the identifier is releasable,
    the call settles as [fn] did (returning its value or rethrowing its
    error) and the identifier is no longer registered. *)
Theorem X12_withResource_registers_runs_and_unregisters
    {V} (id : string) (r : Resource) (fn : M Ledger V) (l : Ledger) :
  ((cap (kind_of r) <= count (kind_of r) l)%nat ->
     withResource id r fn l = (l, Thrown (cap_error (kind_of r))))
  /\ ((count (kind_of r) l < cap (kind_of r))%nat ->
      let after_fn := fn (register id r l).1 in
      (forall r', entry (kind_of r) id after_fn.1 = Some r' -> releasable r') ->
      (withResource id r fn l).2 = after_fn.2
      /\ entry (kind_of r) id (withResource id r fn l).1 = None).
Proof.
  split.
  - intros H. unfold withResource, bind. by rewrite (register_at_cap id r l H).
  - intros H. cbv zeta. unfold withResource, bind, finally.
    rewrite (register_below_cap id r l H). simpl fst.
    destruct (fn _) as [l1 res]. simpl. intros Hrel.
    destruct (entry (kind_of r) id l1) as [r'|] eqn:He.
    + destruct (proj1 (unregister_present _ _ _ _ He) (Hrel r' eq_refl)) as [H1 H2].
      destruct (unregister (kind_of r) id l1) as [l2 [[]|e]]; simpl in *;
        [by split | discriminate H1].
    + rewrite (unregister_absent _ _ _ He). by split.
Qed.

Lemma X12_witness :
  let r := RTimer (mkTimer 7) in
  let fn : M Ledger Z := throw (mkError PlainError "boom") in
  (withResource "t1" r fn empty).2 = Thrown (mkError PlainError "boom")
  /\ entry KTimer "t1" (withResource "t1" r fn empty).1 = None.
Proof.
  intros r fn.
  refine (proj2 (X12_withResource_registers_runs_and_unregisters "t1" r fn empty)
                _ _).
  - vm_compute. lia.
  - intros r' H. vm_compute in H. injection H as <-. exact I.
Defined.

End LedgerExtra.

(** *** Further properties of the connection pool *)

Module PoolExtra.
Import Errors StateErr Ledger Pool SizeFacts LedgerFacts PoolFacts.

#[local] Opaque maxConnections.

(** X13.  With no connection available and [maxSize] connections in
    use, [acquire] hands out nothing: however many passes it is given,
    it is still waiting after them, it has created no connection, and
    the pool and the ledger are untouched. *)
Theorem X13_acquire_waits_at_capacity
    (passes : list (string * Result Handle)) (w : World) :
  available (pool w) = [] ->
  (maxSize (pool w) <= size (inUse (pool w)))%nat ->
  acquire passes w = (w, Returned None).
Proof.
  intros Ha Hfull.
  induction passes as [|[id created] passes IH]; simpl; [reflexivity|].
  unfold bind.
  assert (E : acquire_once id created w = (w, Returned Retry)).
  { destruct w as [[a u mn mx] l]. simpl in *. subst a.
    unfold acquire_once, bind, get, modify. simpl.
    by rewrite (proj2 (Nat.ltb_ge _ _) Hfull). }
  rewrite E. exact IH.
Qed.

Lemma X13_witness :
  let w := (acquire [("conn_1", Returned mock_connection)]
              (mkWorld (construct (Some 1%nat) (Some 1%nat)) Ledger.empty)).1 in
  acquire [("conn_2", Returned mock_connection);
           ("conn_3", Returned mock_connection)] w
  = (w, Returned None).
Proof.
  intros w.
  apply (X13_acquire_waits_at_capacity _ w).
  - reflexivity.
  - vm_compute. lia.
Defined.

(** [acquire] on a pool with a connection available. *)
Lemma acquire_pops
    (id : string) (created : Result Handle) (w : World)
    (rest : list Handle) (c : Handle) :
  available (pool w) = rest ++ [c] ->
  truthy c = true ->
  (size (connections (ledger w)) < maxConnections)%nat ->
  acquire [(id, created)] w
  = ({| pool := {| available := rest; inUse := <[id:=c]> (inUse (pool w));
                   minSize := minSize (pool w); maxSize := maxSize (pool w) |};
        ledger := set_connections (insert id c) (ledger w) |},
     Returned (Some (id, c))).
Proof.
  intros Ha Ht Hcap.
  simpl. unfold bind, acquire_once, bind, get, modify. simpl.
  rewrite Ha, last_snoc. simpl. rewrite Ht. simpl. rewrite Ht.
  unfold hand_out, bind, modify, on_ledger, registerConnection, bind, get. simpl.
  rewrite (proj2 (Nat.leb_gt _ _) Hcap). simpl.
  by rewrite Ha, removelast_last.
Qed.

(** [release] of the connection [acquire] has just handed out. *)
Lemma release_handed_out
    (id : string) (destroyed : Result unit) (w : World)
    (rest : list Handle) (c : Handle) :
  available (pool w) = rest ++ [c] ->
  truthy c = true ->
  inUse (pool w) !! id = None ->
  connections (ledger w) !! id = None ->
  release id destroyed
    {| pool := {| available := rest; inUse := <[id:=c]> (inUse (pool w));
                  minSize := minSize (pool w); maxSize := maxSize (pool w) |};
       ledger := set_connections (insert id c) (ledger w) |}
  = if (length rest <? maxSize (pool w))%nat then (w, Returned tt)
    else match destroyed with
         | Returned _ => (set_available (fun _ => rest) w, Returned tt)
         | Thrown e =>
             ({| pool := pool (set_available (fun _ => rest) w);
                 ledger := set_connections (insert id c) (ledger w) |},
              Thrown e)
         end.
Proof.
  intros Ha Ht Hin Hled.
  unfold release, bind, get, modify. simpl.
  rewrite lookup_insert_eq, Ht.
  destruct w as [[a u mn mx] [ps ts cs fs]]. simpl in *. subst a.
  destruct (length rest <? mx)%nat; simpl.
  - unfold on_ledger. rewrite unregisterConnection_returns. simpl.
    rewrite lookup_insert_eq, Ht.
    unfold set_connections. simpl.
    by rewrite !delete_insert_id by assumption.
  - destruct destroyed as [[]|e]; simpl.
    + unfold on_ledger. rewrite unregisterConnection_returns. simpl.
      rewrite lookup_insert_eq, Ht.
      unfold set_connections, set_available. simpl.
      by rewrite !delete_insert_id by assumption.
    + unfold set_available, set_inUse. simpl.
      by rewrite delete_insert_id by assumption.
Qed.

(** X14.  [acquire] on a pool with a connection available hands out
    the one at the end of [available] (under an identifier new to the
    pool and to the ledger, the ledger being below its connection cap).
    Releasing it gives back the pool and the ledger exactly as they
    were when fewer than [maxSize] connections were left in
    [available].  When [maxSize] or more were left, as in a pool that
    holds more connections than [maxSize], [release] calls [destroyFn]
    instead: [available] stays one shorter, and the release settles as
    [destroyFn] did, with the connection still in the ledger if it
    threw.  (The handle that goes back to [available] is the object on
    which [unregisterConnection] then calls [close], [end] or
    [disconnect]; a handle carries no state here that would record
    it.) *)
Theorem X14_acquire_then_release_restores_the_pool
    (id : string) (created : Result Handle) (destroyed : Result unit)
    (w : World) (rest : list Handle) (c : Handle) :
  available (pool w) = rest ++ [c] ->
  truthy c = true ->
  inUse (pool w) !! id = None ->
  connections (ledger w) !! id = None ->
  (size (connections (ledger w)) < maxConnections)%nat ->
  acquire [(id, created)] w
  = ((acquire [(id, created)] w).1, Returned (Some (id, c)))
  /\ ((length rest < maxSize (pool w))%nat ->
      release id destroyed (acquire [(id, created)] w).1 = (w, Returned tt))
  /\ ((maxSize (pool w) <= length rest)%nat ->
      release id destroyed (acquire [(id, created)] w).1
      = match destroyed with
        | Returned _ => (set_available (fun _ => rest) w, Returned tt)
        | Thrown e =>
            ({| pool := pool (set_available (fun _ => rest) w);
                ledger := set_connections (insert id c) (ledger w) |},
             Thrown e)
        end).
Proof.
  intros Ha Ht Hin Hled Hcap.
  rewrite (acquire_pops id created w rest c Ha Ht Hcap). simpl fst.
  rewrite (release_handed_out id destroyed w rest c Ha Ht Hin Hled).
  split; [reflexivity|]. split; intros H.
  - by rewrite (proj2 (Nat.ltb_lt _ _) H).
  - by rewrite (proj2 (Nat.ltb_ge _ _) H).
Qed.

Lemma X14_witness :
  let w := {| pool := {| available := [mock_connection]; inUse := ∅;
                         minSize := 1; maxSize := 2 |};
              ledger := Ledger.empty |} in
  release "conn_1" (Returned tt)
    (acquire [("conn_1", Thrown (mkError PlainError "unused"))] w).1
  = (w, Returned tt).
Proof.
  intros w.
  refine (proj1 (proj2 (X14_acquire_then_release_restores_the_pool
                          "conn_1" _ (Returned tt) w [] mock_connection _ _ _ _ _))
                _).
  - reflexivity.
  - reflexivity.
  - reflexivity.
  - reflexivity.
  - vm_compute. lia.
  - vm_compute. lia.
Defined.

(** X15.  When the ledger is at its connection cap, [acquire] throws
    "Maximum number of connections reached" after it has taken a
    connection out of [available] and recorded it in [inUse]: the
    caller gets no identifier to release, the ledger is unchanged, and
    the connection stays counted as in use. *)
Theorem X15_acquire_at_the_ledger_cap_strands_the_connection
    (id : string) (created : Result Handle)
    (more : list (string * Result Handle))
    (w : World) (rest : list Handle) (c : Handle) :
  available (pool w) = rest ++ [c] ->
  truthy c = true ->
  (maxConnections <= size (connections (ledger w)))%nat ->
  let r := acquire ((id, created) :: more) w in
  r.2 = Thrown (mkError PlainError "Maximum number of connections reached")
  /\ available (pool r.1) = rest
  /\ inUse (pool r.1) !! id = Some c
  /\ ledger r.1 = ledger w.
Proof.
  intros Ha Ht Hcap. cbv zeta. simpl.
  unfold bind, acquire_once, bind, get, modify. simpl.
  rewrite Ha, last_snoc. simpl. rewrite Ht. simpl. rewrite Ht.
  unfold hand_out, bind, modify, on_ledger, registerConnection, bind, get. simpl.
  rewrite (proj2 (Nat.leb_le _ _) Hcap). simpl.
  rewrite Ha, removelast_last, lookup_insert_eq. by destruct (ledger w).
Qed.

Lemma X15_witness :
  let w := {| pool := {| available := [mock_connection]; inUse := ∅;
                         minSize := 1; maxSize := 1 |};
              ledger := full_of_connections |} in
  (acquire [("conn_1", Returned mock_connection)] w).2
  = Thrown (mkError PlainError "Maximum number of connections reached").
Proof.
  intros w.
  refine (proj1 (X15_acquire_at_the_ledger_cap_strands_the_connection
                   "conn_1" (Returned mock_connection) [] w [] mock_connection _ _ _)).
  - reflexivity.
  - reflexivity.
  - vm_compute. lia.
Defined.

End PoolExtra.

(** *** Further properties of the rate limiter *)

Module LimiterExtra.
Import Limiter LimiterFacts.

Lemma recent_app l now (s1 s2 : list Z) :
  recent l now (s1 ++ s2) = recent l now s1 ++ recent l now s2.
Proof. apply List.filter_app. Qed.

(** Pruning at an earlier time loses nothing a later window contains. *)
Lemma recent_recent l now now' (stamps : list Z) :
  now <= now' -> recent l now' (recent l now stamps) = recent l now' stamps.
Proof.
  intros Hle. unfold recent.
  induction stamps as [|t ts IH]; simpl; [reflexivity|].
  destruct (Z.ltb_spec (now - t) (windowMs l)) as [H1|H1]; simpl.
  - by rewrite IH.
  - rewrite IH. destruct (Z.ltb_spec (now' - t) (windowMs l)); [lia | reflexivity].
Qed.

Lemma lookup_cleanup now l id :
  requests (cleanup now l) !! id
  = match requests l !! id with
    | Some stamps =>
        match recent l now stamps with [] => None | r => Some r end
    | None => None
    end.
Proof.
  unfold cleanup. simpl. rewrite lookup_omap.
  destruct (requests l !! id); reflexivity.
Qed.

Lemma recent_cleanup now now' l id :
  now <= now' ->
  recent l now' (default [] (requests (cleanup now l) !! id))
  = recent l now' (default [] (requests l !! id)).
Proof.
  intros Hle. rewrite lookup_cleanup.
  destruct (requests l !! id) as [stamps|]; simpl; [|reflexivity].
  rewrite <- (recent_recent l now now' stamps Hle).
  destruct (recent l now stamps); reflexivity.
Qed.

(** X17.  The periodic sweep is invisible to later calls: for a clock
    that does not run backwards, [isAllowed] gives the same answer after
    a sweep as it would have given without it; and after a sweep every
    identifier still stored has at least one stamp, all of them inside
    the window of the sweep. *)
Theorem X17_sweep_does_not_change_later_answers
    (l : RateLimiter) (now now' : Z) (id : string) :
  (now <= now' ->
     (isAllowed now' id (cleanup now l)).1 = (isAllowed now' id l).1)
  /\ (forall stamps, requests (cleanup now l) !! id = Some stamps ->
        stamps <> [] /\ Forall (fun t => now - t < windowMs l) stamps).
Proof.
  split.
  - intros Hle. unfold isAllowed.
    change (windowMs (cleanup now l)) with (windowMs l).
    change (recent (cleanup now l)) with (recent l).
    change (maxRequests (cleanup now l)) with (maxRequests l).
    rewrite (recent_cleanup now now' l id Hle).
    destruct (_ >=? _); reflexivity.
  - intros stamps. rewrite lookup_cleanup.
    destruct (requests l !! id) as [s0|]; [|discriminate].
    destruct (recent l now s0) as [|t r] eqn:E; [discriminate|].
    intros [= <-]. split; [discriminate|].
    rewrite <- E. unfold recent. apply List.Forall_forall.
    intros x Hx. apply List.filter_In in Hx as [_ Hx]. by apply Z.ltb_lt.
Qed.

Lemma X17_witness :
  let l := {| requests := {[ "scaffold" := [5000; 5300; 5600] ]};
              windowMs := 1000; maxRequests := 3 |} in
  (isAllowed 6100 "scaffold" (cleanup 6050 l)).1 = (isAllowed 6100 "scaffold" l).1.
Proof.
  intros l.
  apply (proj1 (X17_sweep_does_not_change_later_answers l 6050 6100 "scaffold")).
  lia.
Defined.

Lemma within_quota_isAllowed now id l :
  within_quota l -> within_quota (isAllowed now id l).2.
Proof.
  intros Q. unfold isAllowed.
  destruct (Z.geb_spec
              (Z.of_nat (length (recent l now (default [] (requests l !! id)))))
              (maxRequests l)) as [Hge|Hlt]; [exact Q|].
  intros id' stamps. simpl. destruct (decide (id = id')) as [<-|Hne].
  - rewrite lookup_insert_eq. intros [= <-].
    rewrite length_app. simpl. lia.
  - rewrite lookup_insert_ne by done. apply Q.
Qed.

Lemma within_quota_cleanup now l : within_quota l -> within_quota (cleanup now l).
Proof.
  intros Q id stamps. rewrite lookup_cleanup.
  destruct (requests l !! id) as [s0|] eqn:E; [|discriminate].
  pose proof (Q id s0 E) as Hq. pose proof (recent_length l now s0) as Hl.
  destruct (recent l now s0) as [|t r] eqn:Er; [discriminate|].
  intros [= <-]. change (maxRequests (cleanup now l)) with (maxRequests l). lia.
Qed.

Lemma run_within_quota evs : forall l log,
  within_quota l -> within_quota (run evs l log).1.
Proof.
  induction evs as [|[now id|now] evs IH]; intros l log Q; simpl.
  - exact Q.
  - pose proof (within_quota_isAllowed now id l Q) as Q'.
    destruct (isAllowed now id l) as [ok l']. apply IH, Q'.
  - apply IH, within_quota_cleanup, Q.
Qed.

Lemma run_config evs : forall l log,
  windowMs (run evs l log).1 = windowMs l
  /\ maxRequests (run evs l log).1 = maxRequests l.
Proof.
  induction evs as [|[now id|now] evs IH]; intros l log; simpl.
  - by split.
  - destruct (isAllowed now id l) as [ok l'] eqn:E.
    assert (windowMs l' = windowMs l /\ maxRequests l' = maxRequests l) as [H1 H2].
    { unfold isAllowed in E. destruct (_ >=? _); injection E as <- <-; by split. }
    destruct (IH l' (if ok then log ++ [(now, id)] else log)) as [H3 H4].
    split; congruence.
  - apply (IH (cleanup now l) log).
Qed.

Lemma stamps_of_snoc id log now id' :
  stamps_of id (log ++ [(now, id')])
  = stamps_of id log ++ (if decide (id' = id) then [now] else []).
Proof.
  unfold stamps_of. rewrite omap_app. f_equal. simpl.
  by destruct (decide (id' = id)).
Qed.

Lemma tracks_later l log t t' : t <= t' -> tracks l log t -> tracks l log t'.
Proof. intros Hle T id now Hnow. apply T. lia. Qed.

Lemma tracks_isAllowed now id l log t :
  t <= now -> tracks l log t ->
  tracks (isAllowed now id l).2
         (if (isAllowed now id l).1 then log ++ [(now, id)] else log) now.
Proof.
  intros Hle T. unfold isAllowed.
  destruct (_ >=? _); simpl; [by apply (tracks_later l log t)|].
  intros id' now' Hnow'.
  change (recent (set_requests l ?m)) with (recent l).
  rewrite stamps_of_snoc. simpl.
  destruct (decide (id = id')) as [<-|Hne].
  - rewrite lookup_insert_eq. simpl. rewrite !recent_app.
    rewrite recent_recent by lia. f_equal. apply T. lia.
  - rewrite lookup_insert_ne by done. rewrite app_nil_r. apply T. lia.
Qed.

Lemma tracks_cleanup now l log t :
  t <= now -> tracks l log t -> tracks (cleanup now l) log now.
Proof.
  intros Hle T id now' Hnow'.
  change (recent (cleanup now l)) with (recent l).
  rewrite recent_cleanup by lia. apply T. lia.
Qed.

Lemma run_tracks evs : forall l log t,
  tracks l log t -> nondecreasing t evs ->
  tracks (run evs l log).1 (run evs l log).2 (end_time t evs).
Proof.
  induction evs as [|[now id|now] evs IH]; intros l log t T Hmono; simpl.
  - exact T.
  - destruct Hmono as [Hle Hmono]. simpl in *.
    pose proof (tracks_isAllowed now id l log t Hle T) as T'.
    destruct (isAllowed now id l) as [ok l']. simpl in T'.
    apply IH; assumption.
  - destruct Hmono as [Hle Hmono]. simpl in *.
    apply IH; [|assumption]. by apply (tracks_cleanup now l log t).
Qed.

(** X16.  The limiter keeps its promise.  Starting from a new limiter,
    whatever calls and sweeps follow with a clock that does not run
    backwards, the calls accepted for any one identifier inside any
    window of [windowMs] that ends at the last event or later number at
    most [maxRequests] (none at all for a quota below 1). *)
Theorem X16_accepted_calls_in_a_window_stay_within_the_quota
    (w m : option Z) (evs : list Event) (t0 : Z) (id : string) (now : Z) :
  nondecreasing t0 evs ->
  end_time t0 evs <= now ->
  let l := (run evs (create w m) []).1 in
  let log := (run evs (create w m) []).2 in
  Z.of_nat (length (recent l now (stamps_of id log))) <= Z.max 0 (maxRequests l).
Proof.
  intros Hmono Hnow l log.
  assert (T : tracks l log (end_time t0 evs)).
  { apply run_tracks; [|exact Hmono]. intros id' now' _. simpl.
    by rewrite lookup_empty. }
  assert (Q : within_quota l).
  { apply run_within_quota. intros id' stamps. simpl. by rewrite lookup_empty. }
  rewrite <- (T id now Hnow).
  pose proof (recent_length l now (default [] (requests l !! id))) as Hlen.
  destruct (requests l !! id) as [stamps|] eqn:E; simpl in *.
  - pose proof (Q id stamps E). lia.
  - lia.
Qed.

Lemma X16_witness :
  let evs := [Ask 5000 "scaffold"; Ask 5300 "scaffold"; Sweep 5500;
              Ask 5600 "scaffold"; Ask 5999 "scaffold"; Ask 6000 "scaffold"] in
  let l := (run evs (create (Some 1000) (Some 3)) []).1 in
  let log := (run evs (create (Some 1000) (Some 3)) []).2 in
  Z.of_nat (length (recent l 6000 (stamps_of "scaffold" log)))
  <= Z.max 0 (maxRequests l).
Proof.
  intros evs.
  apply (X16_accepted_calls_in_a_window_stay_within_the_quota
           (Some 1000) (Some 3) evs 0 "scaffold" 6000).
  - vm_compute. repeat split; discriminate.
  - vm_compute. discriminate.
Defined.

(** X18.  A limiter never stores more than [maxRequests] stamps for an
    identifier (none for a quota below 1), whatever the order of calls
    and sweeps and whatever the clock does; its two settings never
    change. *)
Theorem X18_stored_stamps_stay_within_the_quota
    (w m : option Z) (evs : list Event) (id : string) :
  let l := (run evs (create w m) []).1 in
  Z.of_nat (length (default [] (requests l !! id))) <= Z.max 0 (maxRequests l)
  /\ windowMs l = default 60000 w
  /\ maxRequests l = default 100 m.
Proof.
  intros l.
  assert (Q : within_quota l).
  { apply run_within_quota. intros id' stamps. simpl. by rewrite lookup_empty. }
  destruct (run_config evs (create w m) []) as [Hw Hm].
  split; [|split; assumption].
  destruct (requests l !! id) as [stamps|] eqn:E; simpl.
  - exact (Q id stamps E).
  - lia.
Qed.

End LimiterExtra.

(** *** Properties of the sanitizers *)

Module SecurityExtra.
Import Errors Security.

Lemma strip_all p s : all_chars (fun c => negb (p c)) (strip p s) = true.
Proof.
  induction s as [|c s IH]; simpl; [reflexivity|].
  destruct (p c) eqn:E; simpl; [exact IH | by rewrite E].
Qed.

Lemma strip_length p s : (String.length (strip p s) <= String.length s)%nat.
Proof.
  induction s as [|c s IH]; simpl; [lia|]. destruct (p c); simpl; lia.
Qed.



Lemma string_pair_ind (P : string -> Prop) :
  P "" ->
  (forall c, P (String c "")) ->
  (forall c d r, P r -> P (String d r) -> P (String c (String d r))) ->
  forall s, P s.
Proof.
  intros H0 H1 H2 s.
  assert (H : P s /\ forall c, P (String c s)); [|by destruct H].
  induction s as [|d r [IHr IHdr]]; [by split|].
  split; [apply IHdr|]. intros c. apply H2; [exact IHr | apply IHdr].
Qed.

Lemma remove_dotdot_chars p s :
  all_chars p s = true -> all_chars p (remove_dotdot s) = true.
Proof.
  induction s as [| |c d r IHr IHdr] using string_pair_ind; [done..|].
  intros H. cbn [remove_dotdot].
  destruct (Ascii.eqb c "." && Ascii.eqb d ".").
  - apply IHr. simpl in H. by repeat (apply andb_true_iff in H as [? H]).
  - change (all_chars p (String c (remove_dotdot (String d r))) = true).
    simpl in H |- *. apply andb_true_iff in H as [Hc H].
    rewrite Hc. apply IHdr. exact H.
Qed.

Lemma remove_dotdot_length s :
  (String.length (remove_dotdot s) <= String.length s)%nat.
Proof.
  induction s as [| |c d r IHr IHdr] using string_pair_ind; [done..|].
  cbn [remove_dotdot].
  destruct (Ascii.eqb c "." && Ascii.eqb d ".").
  - simpl. lia.
  - change (String.length (String c (remove_dotdot (String d r)))
            <= String.length (String c (String d r)))%nat.
    simpl in *. lia.
Qed.

Lemma remove_dotdot_head d r :
  d <> "."%char ->
  remove_dotdot (String d r) = String d (remove_dotdot r).
Proof.
  intros Hd. destruct r as [|e r']; [reflexivity|].
  cbn [remove_dotdot].
  destruct (Ascii.eqb_spec d "."); [contradiction | reflexivity].
Qed.

Lemma prefix_dotdot c t :
  String.prefix ".." (String c t)
  = Ascii.eqb c "."
    && match t with String d _ => Ascii.eqb d "." | EmptyString => false end.
Proof.
  cbn [String.prefix].
  destruct (Ascii.ascii_dec "." c) as [<-|Hc].
  - rewrite Ascii.eqb_refl. destruct t as [|d t]; [reflexivity|].
    cbn [andb String.prefix].
    destruct (Ascii.ascii_dec "." d) as [<-|Hd].
    + rewrite Ascii.eqb_refl. by destruct t.
    + symmetry. apply Ascii.eqb_neq. congruence.
  - symmetry. apply andb_false_iff. left. apply Ascii.eqb_neq. congruence.
Qed.

Lemma includes_cons c t needle :
  Retry.includes (String c t) needle
  = String.prefix needle (String c t) || Retry.includes t needle.
Proof. reflexivity. Qed.

Lemma remove_dotdot_step c d r :
  remove_dotdot (String c (String d r))
  = if Ascii.eqb c "." && Ascii.eqb d "."
    then remove_dotdot r
    else String c (remove_dotdot (String d r)).
Proof. reflexivity. Qed.

Lemma remove_dotdot_clean s : Retry.includes (remove_dotdot s) ".." = false.
Proof.
  induction s as [|c |c d r IHr IHdr] using string_pair_ind.
  - reflexivity.
  - cbn [remove_dotdot]. rewrite includes_cons, prefix_dotdot.
    by rewrite andb_false_r.
  - rewrite remove_dotdot_step.
    destruct (Ascii.eqb_spec c ".") as [->|Hc]; cbn [andb].
    + destruct (Ascii.eqb_spec d ".") as [->|Hd]; [exact IHr|].
      rewrite includes_cons, IHdr, orb_false_r, prefix_dotdot.
      rewrite (remove_dotdot_head d r Hd).
      apply andb_false_iff. right. by apply Ascii.eqb_neq.
    + rewrite includes_cons, IHdr, orb_false_r, prefix_dotdot.
      apply andb_false_iff. left. by apply Ascii.eqb_neq.
Qed.

Lemma replace_char_chars s :
  all_chars (fun c => negb (Ascii.eqb c "000")) s = true ->
  all_chars path_char (replace_char "\" "/" s) = true.
Proof.
  induction s as [|c s IH]; simpl; [reflexivity|].
  intros H. apply andb_true_iff in H as [Hc Hs]. rewrite (IH Hs), andb_true_r.
  unfold path_char.
  destruct (Ascii.eqb_spec c "\") as [->|Hne]; [reflexivity|].
  rewrite Hc. simpl. by apply negb_true_iff, Ascii.eqb_neq.
Qed.

Lemma replace_char_length c d s :
  String.length (replace_char c d s) = String.length s.
Proof. induction s as [|x s IH]; simpl; [reflexivity | by rewrite IH]. Qed.

(** X20.  Whatever [sanitizePath] returns holds no NUL and no
    backslash, holds no [..], is at most 1024 characters long and no
    longer than the argument, and if it starts with [/] it starts with
    [/Users]. *)
Theorem X20_sanitizePath_result_is_clean (inputPath s : string) :
  sanitizePath inputPath = Returned s ->
  all_chars path_char s = true
  /\ Retry.includes s ".." = false
  /\ (String.length s <= 1024)%nat
  /\ (String.length s <= String.length inputPath)%nat
  /\ (String.prefix "/" s = true -> String.prefix "/Users" s = true).
Proof.
  unfold sanitizePath.
  destruct (String.eqb inputPath ""); [discriminate|].
  set (clean := remove_dotdot _).
  destruct (String.prefix "/" clean && negb (String.prefix "/Users" clean)) eqn:Habs;
    [discriminate|].
  destruct (Nat.ltb_spec MAX_PATH_LENGTH (String.length clean)) as [|Hlen];
    [discriminate|].
  intros [= <-]. unfold clean.
  split; [apply remove_dotdot_chars, replace_char_chars, strip_all|].
  split; [apply remove_dotdot_clean|].
  split; [exact Hlen|].
  split.
  - etransitivity; [apply remove_dotdot_length|].
    rewrite replace_char_length. apply strip_length.
  - fold clean. intros Hp. rewrite Hp in Habs. simpl in Habs.
    by apply negb_false_iff in Habs.
Qed.

Lemma X20_witness :
  Retry.includes "uploads//etc/passwd" ".." = false.
Proof.
  refine (proj1 (proj2 (X20_sanitizePath_result_is_clean
                          "uploads\..\etc/passwd" "uploads//etc/passwd" _))).
  vm_compute. reflexivity.
Defined.


End SecurityExtra.

(** *** Further properties of the metrics collector *)

Module MetricsExtra.
Import Metrics.

Section WithEnvironment.
Context {Value : Type}.
Variable render : Value -> string.
Variable localeCompare : string -> string -> Z.

Lemma histogram_bounded name value tags c :
  histograms_bounded c ->
  histograms_bounded (histogram render localeCompare name value tags c).
Proof.
  intros B key values. unfold histogram. simpl.
  set (k := getKey render localeCompare name tags).
  destruct (decide (k = key)) as [<-|Hne].
  - rewrite lookup_insert_eq. intros [= <-].
    assert (Hold : (length (default [] (histograms c !! k)) <= 1000)%nat).
    { destruct (histograms c !! k) as [vs|] eqn:E; simpl; [|lia].
      apply (B k vs E). }
    rewrite length_app. simpl.
    destruct (Nat.ltb_spec 1000 (length (default [] (histograms c !! k)) + 1)).
    + destruct (default [] (histograms c !! k)) as [|v vs]; simpl in *; [lia|].
      rewrite length_app. simpl. lia.
    + rewrite length_app. simpl. lia.
  - rewrite lookup_insert_ne by done. apply B.
Qed.

Lemma collector_step_bounded c op :
  histograms_bounded c -> histograms_bounded (step render localeCompare c op).
Proof.
  intros B. destruct op; simpl; try exact B.
  - by apply histogram_bounded.
  - unfold stopTimer. apply histogram_bounded. exact B.
  - intros key values. simpl. by rewrite lookup_empty.
Qed.

(** X21.  Histogram storage is bounded: after any sequence of calls on
    a new collector, every histogram that exists holds at least one and
    at most 1000 values. *)
Theorem X21_histograms_hold_at_most_1000_values
    (ops : list (Op (Value := Value))) (key : string) (values : list number) :
  histograms (run render localeCompare ops empty) !! key = Some values ->
  (1 <= length values <= 1000)%nat.
Proof.
  assert (H : forall c, histograms_bounded c ->
                histograms_bounded (run render localeCompare ops c)).
  { induction ops as [|op ops IH]; intros c B; simpl; [exact B|].
    apply IH, collector_step_bounded, B. }
  apply H. intros k vs. simpl. by rewrite lookup_empty.
Qed.

(** X22.  Operation statistics are kept per key.  Asking for a key
    nothing was recorded under gives [null], on a new collector and
    after [reset]; after [recordOperation] the statistics of its key
    exist; and recording under one key leaves what is reported for
    every other key unchanged. *)
Theorem X22_operation_stats_are_kept_per_key
    (name : string) (tags : option Entries) (d : number) (e : option bool)
    (c : Collector) :
  getOperationStats render localeCompare name tags empty = None
  /\ getOperationStats render localeCompare name tags (reset c) = None
  /\ is_Some (getOperationStats render localeCompare name tags
                (recordOperation render localeCompare name d e tags c))
  /\ (forall name' (tags' : option Entries),
        getKey render localeCompare name' tags'
          <> getKey render localeCompare name tags ->
        getOperationStats render localeCompare name' tags'
          (recordOperation render localeCompare name d e tags c)
        = getOperationStats render localeCompare name' tags' c).
Proof.
  split; [|split; [|split]].
  - unfold getOperationStats. simpl. by rewrite lookup_empty.
  - unfold getOperationStats, reset. simpl. by rewrite lookup_empty.
  - unfold getOperationStats, recordOperation. simpl.
    rewrite lookup_insert_eq. by eexists.
  - intros name' tags' Hne. unfold getOperationStats, recordOperation. simpl.
    by rewrite lookup_insert_ne.
Qed.

End WithEnvironment.

Lemma X21_witness :
  let ops : list (Op (Value := string)) :=
             [Histogram "lag" 3%float None; StopTimer "tool.build" 12%float None;
              Histogram "lag" 4%float (Some [])] in
  (1 <= length [3%float; 4%float] <= 1000)%nat.
Proof.
  intros ops.
  apply (X21_histograms_hold_at_most_1000_values
           (Value := string) id by_encoding ops "lag" [3%float; 4%float]).
  vm_compute. reflexivity.
Defined.

Lemma X22_witness :
  getOperationStats (Value := string) id by_encoding "db.query" None
    (recordOperation id by_encoding "tool.build" 12%float None None empty)
  = getOperationStats id by_encoding "db.query" None empty.
Proof.
  refine (proj2 (proj2 (proj2 (X22_operation_stats_are_kept_per_key
                                 (Value := string) id by_encoding
                                 "tool.build" None 12%float None empty)))
                "db.query" None _).
  vm_compute. discriminate.
Defined.

End MetricsExtra.

(** *** Properties of the tool base class *)

Module ToolExtra.
Import Errors StateErr Tool.

Section WithValues.
Context {Value : Type}.
Variable REDACTED : Value.
Variable plain : string -> bool.

Lemma redact_where_ext (p q : string -> bool) (o : list (string * Value)) :
  (forall k, k ∈ keys o -> p k = q k) ->
  redact_where REDACTED p o = redact_where REDACTED q o.
Proof.
  unfold redact_where, keys. induction o as [|[k x] o IH]; intros H; [reflexivity|].
  csimpl. rewrite (H k) by (csimpl; left). f_equal.
  apply IH. intros k' Hk'. apply H. csimpl. by right.
Qed.

Lemma redact_where_twice (p q : string -> bool) (o : list (string * Value)) :
  redact_where REDACTED p (redact_where REDACTED q o)
  = redact_where REDACTED (fun k => p k || q k) o.
Proof.
  unfold redact_where. induction o as [|[k x] o IH]; [reflexivity|].
  csimpl. rewrite IH. f_equal. f_equal. by destruct (p k), (q k).
Qed.

Lemma redact_where_none (o : list (string * Value)) :
  redact_where REDACTED (fun _ => false) o = o.
Proof.
  unfold redact_where. induction o as [|[k x] o IH]; [reflexivity|].
  csimpl. by rewrite IH.
Qed.

Lemma keys_redact_where p (o : list (string * Value)) :
  keys (redact_where REDACTED p o) = keys o.
Proof.
  unfold redact_where, keys. induction o as [|[k x] o IH]; [reflexivity|].
  csimpl. by rewrite IH.
Qed.

Lemma assign_redact (o : list (string * Value)) key :
  assign o key REDACTED = redact_where REDACTED (fun k => String.eqb k key) o.
Proof. reflexivity. Qed.

Lemma foldl_assign (p : string -> bool) (ks : list string) :
  forall o : list (string * Value),
  foldl (fun acc key => if p key then assign acc key REDACTED else acc) o ks
  = redact_where REDACTED
      (fun k => existsb (fun key => p key && String.eqb k key) ks) o.
Proof.
  induction ks as [|key ks IH]; intros o; simpl.
  - by rewrite redact_where_none.
  - rewrite IH. destruct (p key); simpl.
    + rewrite assign_redact, redact_where_twice.
      apply redact_where_ext. intros k _. apply orb_comm.
    + reflexivity.
Qed.

Lemma existsb_own (p : string -> bool) (ks : list string) k :
  k ∈ ks -> existsb (fun key => p key && String.eqb k key) ks = p k.
Proof.
  intros Hk. destruct (p k) eqn:Hp.
  - apply existsb_exists. exists k. split; [by apply list_elem_of_In|].
    by rewrite Hp, String.eqb_refl.
  - apply not_true_iff_false. intros H.
    apply existsb_exists in H as (key & _ & H).
    apply andb_true_iff in H as [H1 H2]. apply String.eqb_eq in H2. subst key.
    congruence.
Qed.

Lemma prefix_refl s : String.prefix s s = true.
Proof.
  induction s as [|c s IH]; [reflexivity|]. cbn [String.prefix].
  by destruct (Ascii.ascii_dec c c).
Qed.

Lemma includes_refl s : Retry.includes s s = true.
Proof. destruct s; unfold Retry.includes; fold Retry.includes; by rewrite prefix_refl. Qed.

Lemma redact_field_spec (o : list (string * Value)) field :
  redact_field REDACTED o field
  = redact_where REDACTED
      (fun k => Retry.includes (toLowerCase k) (toLowerCase field)) o.
Proof.
  unfold redact_field. rewrite foldl_assign.
  destruct (has_own o field).
  - rewrite assign_redact, keys_redact_where, redact_where_twice.
    apply redact_where_ext. intros k Hk.
    rewrite (existsb_own (fun key => Retry.includes (toLowerCase key)
                                       (toLowerCase field))) by exact Hk.
    destruct (String.eqb_spec k field) as [E|_].
    + subst k. by rewrite (includes_refl (toLowerCase field)).
    + apply orb_false_r.
  - apply redact_where_ext. intros k Hk.
    by apply (existsb_own (fun key => Retry.includes (toLowerCase key)
                                        (toLowerCase field))).
Qed.

Lemma foldl_redact_field (fields : list string) :
  forall o : list (string * Value),
  foldl (redact_field REDACTED) o fields
  = redact_where REDACTED
      (fun k => existsb (fun field =>
                           Retry.includes (toLowerCase k) (toLowerCase field))
                        fields) o.
Proof.
  induction fields as [|f fs IH]; intros o; simpl.
  - by rewrite redact_where_none.
  - rewrite IH, redact_field_spec, redact_where_twice.
    apply redact_where_ext. intros k _. apply orb_comm.
Qed.

(** X23.  [sanitizeForLogging] returns a non-object unchanged.  Of an
    object it returns a plain copy that keeps every own key, in order;
    it replaces by ['[REDACTED]'] the value of exactly the keys that,
    in lower case, contain one of the twelve sensitive field names in
    lower case, and leaves every other value, nested objects included,
    as it is. *)
Theorem X23_sanitizeForLogging_redacts_exactly_the_sensitive_keys
    (input : Input (Value := Value)) :
  sanitizeForLogging REDACTED plain input
  = match input with
    | NotAnObject v => NotAnObject v
    | AnObject own inherited =>
        AnObject ((fun '(k, x) => (k, if sensitive k then REDACTED else x)) <$> own)
                 plain
    end.
Proof.
  destruct input as [v|own inherited]; [reflexivity|].
  unfold sanitizeForLogging. by rewrite foldl_redact_field.
Qed.

Lemma check_required_spec (own : list (string * Value)) inherited required :
  match check_required own inherited required with
  | None => forallb (has own inherited) required = true
  | Some e =>
      exists before field after,
        required = before ++ field :: after
        /\ forallb (has own inherited) before = true
        /\ has own inherited field = false
        /\ e = mkError ValidationError ("Missing required field: " +:+ field)
  end.
Proof.
  induction required as [|f rest IH]; simpl; [reflexivity|].
  destruct (has own inherited f) eqn:Hf; simpl.
  - destruct (check_required own inherited rest) as [e|]; [|exact IH].
    destruct IH as (before & field & after & -> & Hb & Hm & ->).
    exists (f :: before), field, after. simpl. by rewrite Hf.
  - by exists [], f, rest.
Qed.

(** X24.  Without a Zod schema, [validateInput] returns its argument
    unchanged exactly when the argument is an object that has every
    field of [inputSchema.required]; a non-object is refused with
    "Input must be an object", and an object with fields missing is
    refused with a [ValidationError] that names the first missing field
    in the order of the schema. *)
Theorem X24_validateInput_reports_the_first_missing_field
    (required : option (list string)) (input : Input (Value := Value)) :
  match validateInput required input with
  | Returned v =>
      v = input
      /\ exists own inherited,
           input = AnObject own inherited
           /\ forallb (has own inherited) (default [] required) = true
  | Thrown e =>
      (exists v, input = NotAnObject v
                 /\ e = mkError ValidationError "Input must be an object")
      \/ (exists own inherited before field after,
            input = AnObject own inherited
            /\ default [] required = before ++ field :: after
            /\ forallb (has own inherited) before = true
            /\ has own inherited field = false
            /\ e = mkError ValidationError ("Missing required field: " +:+ field))
  end.
Proof.
  destruct input as [v|own inherited]; simpl.
  - left. by exists v.
  - pose proof (check_required_spec own inherited (default [] required)) as H.
    destruct (check_required own inherited (default [] required)) as [e|].
    + right. destruct H as (before & field & after & H).
      by exists own, inherited, before, field, after.
    + split; [reflexivity|]. by exists own, inherited.
Qed.

End WithValues.

#[local] Opaque Ledger.maxTimers Ledger.maxConnections.

Lemma append_assoc (a b c : string) : (a +:+ b) +:+ c = a +:+ (b +:+ c).
Proof.
  induction a as [|x a IH]; [reflexivity|].
  change (String x ((a +:+ b) +:+ c) = String x (a +:+ (b +:+ c))).
  by rewrite IH.
Qed.

Lemma prefix_append (a b : string) : String.prefix a (a +:+ b) = true.
Proof.
  induction a as [|x a IH]; [by destruct b|].
  change (String.prefix (String x a) (String x (a +:+ b)) = true).
  cbn [String.prefix]. by destruct (Ascii.ascii_dec x x).
Qed.

Lemma with_context_prefix t e :
  String.prefix ("[" +:+ name t +:+ "] ") (message (with_context t e)) = true.
Proof.
  unfold with_context. cbn [message].
  change (String.prefix (String "[" (name t +:+ "] "))
            (String "[" (name t +:+ ("] " +:+ message e))) = true).
  cbn [String.prefix]. destruct (Ascii.ascii_dec "[" "["); [|done].
  rewrite <- (append_assoc (name t) "] " (message e)). apply prefix_append.
Qed.

Lemma isAllowed_false now id l :
  (Limiter.isAllowed now id l).1 = false -> Limiter.isAllowed now id l = (false, l).
Proof. unfold Limiter.isAllowed. destruct (_ >=? _); [reflexivity | discriminate]. Qed.

(** X25.  When the tool's limiter turns the call away, [execute]
    rejects with "[<name>] Rate limit exceeded for tool: <name>" without
    validating the input or starting [executeInternal], and neither the
    limiter nor the resource manager changes. *)
Theorem X25_execute_rejects_a_rate_limited_call
    {I O} (t : Tool) (c : Call I O) (st : ToolState) :
  (Limiter.isAllowed (limiter_now c) (name t) (limiter st)).1 = false ->
  execute t c st
  = (st, Breaker.mkReport
           (Thrown (mkError PlainError
                      ("[" +:+ name t +:+ "] Rate limit exceeded for tool: "
                         +:+ name t)))
           false).
Proof.
  intros H. unfold execute. rewrite (isAllowed_false _ _ _ H). simpl.
  by destruct st.
Qed.

Lemma X25_witness :
  let t := mkTool "scaffold" 30000 in
  let st := {| limiter := {| Limiter.requests := {[ "scaffold" := [5000; 5300; 5600] ]};
                             Limiter.windowMs := 1000; Limiter.maxRequests := 3 |};
               manager := Ledger.empty |} in
  let c := mkCall (I := Z) (O := Z) 5999 (Returned 1) 5999 (Ledger.mkTimer 1)
             (Breaker.Fulfils 2) in
  Breaker.invoked (execute t c st).2 = false.
Proof.
  intros t st c.
  rewrite (X25_execute_rejects_a_rate_limited_call t c st); [reflexivity|].
  vm_compute. reflexivity.
Defined.

(** X26.  Every error [execute] rejects with carries the tool's name in
    square brackets at the start of its message, and keeps its class:
    the rate-limit error, what [validateInput] threw, what
    [executeInternal] threw, and the timeout. *)
Theorem X26_execute_prefixes_every_error_with_the_tool_name
    {I O} (t : Tool) (c : Call I O) (st : ToolState) (e : JsError) :
  Breaker.result (execute t c st).2 = Thrown e ->
  String.prefix ("[" +:+ name t +:+ "] ") (message e) = true
  /\ exists e0, e = with_context t e0 /\ cls e = cls e0.
Proof.
  unfold execute.
  destruct (Limiter.isAllowed _ _ _) as [[|] lim]; simpl.
  - destruct (validation c) as [v|ev]; simpl.
    + destruct (executeWithTimeout t c (manager st)) as [l' [v'|e']]; simpl;
        [discriminate|].
      intros [= <-]. split; [apply with_context_prefix | by eexists].
    + intros [= <-]. split; [apply with_context_prefix | by eexists].
  - intros [= <-]. split; [apply with_context_prefix | by eexists].
Qed.

Lemma X26_witness :
  let t := mkTool "scaffold" 30000 in
  let st := {| limiter := Limiter.create None None; manager := Ledger.empty |} in
  let c := mkCall (I := Z) (O := Z) 5000 (Returned 1) 5000 (Ledger.mkTimer 1)
             Breaker.TimesOut in
  String.prefix "[scaffold] "
    (message (with_context t (newTimeoutError "scaffold" 30000))) = true.
Proof.
  intros t st c.
  refine (proj1 (X26_execute_prefixes_every_error_with_the_tool_name t c st _ _)).
  vm_compute. reflexivity.
Defined.

(** X27.  [execute] never takes a timer out of the resource manager.
    A call that passes the limiter and validation registers its timeout
    timer under [timeout_<name>_<now>] and leaves it registered when it
    settles, however the race ends; and once the manager holds 100
    timers such a call, if [executeInternal] does not settle first,
    rejects with "[<name>] Maximum number of timers reached", after
    [executeInternal] has been started. *)
Theorem X27_execute_leaves_its_timeout_timer_registered
    {I O} (t : Tool) (c : Call I O) (st : ToolState) :
  (forall id, is_Some (Ledger.timers (manager st) !! id) ->
     is_Some (Ledger.timers (manager (execute t c st).1) !! id))
  /\ ((Limiter.isAllowed (limiter_now c) (name t) (limiter st)).1 = true ->
      (exists v, validation c = Returned v) ->
      ((size (Ledger.timers (manager st)) < Ledger.maxTimers)%nat ->
         Ledger.timers (manager (execute t c st).1) !! timer_id t (timer_now c)
         = Some (timer c))
      /\ ((Ledger.maxTimers <= size (Ledger.timers (manager st)))%nat ->
          race c = Breaker.TimesOut ->
          (execute t c st).2
          = Breaker.mkReport
              (Thrown (mkError PlainError
                         ("[" +:+ name t +:+ "] Maximum number of timers reached")))
              true)).
Proof.
  unfold execute, executeWithTimeout, Ledger.registerTimer, bind, get, modify.
  destruct (Limiter.isAllowed _ _ _) as [ok lim]. split.
  - intros id Hid. destruct ok; simpl; [|exact Hid].
    destruct (validation c); simpl; [|exact Hid].
    destruct (_ <=? _)%nat; simpl; [exact Hid|].
    destruct (decide (timer_id t (timer_now c) = id)) as [<-|Hne].
    + rewrite lookup_insert_eq. by eexists.
    + by rewrite lookup_insert_ne.
  - simpl. intros -> [v ->]. simpl. split.
    + intros Hlt. rewrite (proj2 (Nat.leb_gt _ _) Hlt). simpl.
      by rewrite lookup_insert_eq.
    + intros Hge ->. by rewrite (proj2 (Nat.leb_le _ _) Hge).
Qed.

Lemma X27_witness :
  let t := mkTool "scaffold" 30000 in
  let st := {| limiter := Limiter.create None None; manager := Ledger.empty |} in
  let c := mkCall (I := Z) (O := Z) 5000 (Returned 1) 5001 (Ledger.mkTimer 9)
             (Breaker.Fulfils 2) in
  Ledger.timers (manager (execute t c st).1) !! "timeout_scaffold_5001"
  = Some (Ledger.mkTimer 9).
Proof.
  intros t st c.
  refine (proj1 (proj2 (X27_execute_leaves_its_timeout_timer_registered t c st)
                   _ _) _).
  - reflexivity.
  - by exists 1.
  - vm_compute. lia.
Defined.



End ToolExtra.

(** *** Properties of the recovery controller *)

Module RecoveryExtra.
Import Ledger Recovery.

(** X29.  The resource health check is critical only when processes,
    connections and file handles are all three above their marks (8, 80
    and 40) at once, healthy only when none is, and a warning
    otherwise; timers play no part; and the usage of a ledger that has
    just been cleaned up is healthy. *)
Theorem X29_resource_health_is_critical_only_when_all_three_marks_are_passed
    (u : Usage) (l : Ledger) :
  (status (checkResourceHealth u) = critical <->
     (8 < u_processes u /\ 80 < u_connections u /\ 40 < u_fileHandles u)%nat)
  /\ (status (checkResourceHealth u) = healthy <->
       (u_processes u <= 8 /\ u_connections u <= 80 /\ u_fileHandles u <= 40)%nat)
  /\ (forall n, checkResourceHealth
                  {| u_processes := u_processes u; u_connections := u_connections u;
                     u_fileHandles := u_fileHandles u; u_timers := n |}
                = checkResourceHealth u)
  /\ checkResourceHealth (getUsage (cleanup l).1)
     = {| status := healthy; message := None |}.
Proof.
  unfold checkResourceHealth, issues.
  split; [|split; [|split]].
  - destruct (Nat.ltb_spec 8 (u_processes u)), (Nat.ltb_spec 80 (u_connections u)),
      (Nat.ltb_spec 40 (u_fileHandles u)); simpl; split;
      try discriminate; try lia; done.
  - destruct (Nat.ltb_spec 8 (u_processes u)), (Nat.ltb_spec 80 (u_connections u)),
      (Nat.ltb_spec 40 (u_fileHandles u)); simpl; split;
      try discriminate; try lia; done.
  - reflexivity.
  - by rewrite LedgerFacts.cleanup_empties.
Qed.

Lemma attemptRecovery_counts now recovered st log :
  isRecovering st = false ->
  recoveryAttempts st = failed_in_a_row log ->
  isRecovering (attemptRecovery now recovered st).1 = false
  /\ recoveryAttempts (attemptRecovery now recovered st).1
     = failed_in_a_row ((attemptRecovery now recovered st).2 :: log).
Proof.
  intros Hr Hc. unfold attemptRecovery. rewrite Hr.
  destruct (_ <? _); simpl; [by split|].
  destruct recovered; simpl; [by split|].
  split; [reflexivity|].
  destruct (_ >=? _); simpl; unfold outcome; simpl; lia.
Qed.

Lemma run_counts calls : forall st log,
  isRecovering st = false ->
  recoveryAttempts st = failed_in_a_row log ->
  isRecovering (run calls st log).1 = false
  /\ recoveryAttempts (run calls st log).1 = failed_in_a_row (run calls st log).2.
Proof.
  induction calls as [|[now recovered] calls IH]; intros st log Hr Hc; simpl.
  - by split.
  - destruct (attemptRecovery_counts now recovered st log Hr Hc) as [H1 H2].
    destruct (attemptRecovery now recovered st) as [st' signals].
    by apply IH.
Qed.

(** X30.  A call of [attemptRecovery] less than 30000ms after the last
    recovery does nothing.  A recovery that is carried out records its
    time, and a successful one resets the attempt counter.  In every
    sequence of calls on a new controller, the call that requests a
    shutdown is a failed recovery that is at least the third failed
    recovery in a row (skipped calls aside) since the last successful
    one. *)
Theorem X30_shutdown_is_requested_after_three_failed_recoveries_in_a_row
    (calls : list (Z * bool)) (now : Z) (recovered : bool) :
  let st := (run calls initial []).1 in
  let log := (run calls initial []).2 in
  let r := attemptRecovery now recovered st in
  (now - lastRecoveryTime st < 30000 -> r = (st, []))
  /\ (r.2 <> [] -> lastRecoveryTime r.1 = now /\ 30000 <= now - lastRecoveryTime st)
  /\ (RecoverySuccess ∈ r.2 -> recoveryAttempts r.1 = 0)
  /\ (ShutdownRequested ∈ r.2 ->
        recovered = false /\ 3 <= failed_in_a_row (r.2 :: log)).
Proof.
  intros st log r.
  destruct (run_counts calls initial [] eq_refl eq_refl) as [Hr Hc].
  fold st in Hr, Hc. fold log in Hc.
  pose proof (attemptRecovery_counts now recovered st log Hr Hc) as [_ Hn].
  fold r in Hn. revert Hn. unfold r, attemptRecovery. rewrite Hr.
  unfold recoveryBackoff, maxRecoveryAttempts.
  destruct (Z.ltb_spec (now - lastRecoveryTime st) 30000) as [Hlt|Hge]; simpl.
  - intros _. split; [done|]. split; [done|].
    split; intros H; by apply elem_of_nil in H.
  - destruct recovered; simpl.
    + intros _. split; [lia|]. split; [intros _; split; [reflexivity | lia]|].
      split; [done|]. intros H.
      repeat (apply elem_of_cons in H as [H|H]; [discriminate H|]).
      by apply elem_of_nil in H.
    + intros Hn. split; [lia|]. split; [intros _; split; [reflexivity | lia]|].
      destruct (Z.geb_spec (recoveryAttempts st + 1) 3) as [H3|H3]; simpl in *.
      * split.
        -- intros H.
           repeat (apply elem_of_cons in H as [H|H]; [discriminate H|]).
           by apply elem_of_nil in H.
        -- intros _. split; [reflexivity | lia].
      * split; intros H;
          repeat (apply elem_of_cons in H as [H|H]; [discriminate H|]);
          by apply elem_of_nil in H.
Qed.

Lemma X30_witness :
  let calls := [(30000, false); (60000, false)] in
  let st := (run calls initial []).1 in
  let log := (run calls initial []).2 in
  3 <= failed_in_a_row ((attemptRecovery 90000 false st).2 :: log).
Proof.
  intros calls st log.
  refine (proj2 (proj2 (proj2 (proj2
            (X30_shutdown_is_requested_after_three_failed_recoveries_in_a_row
               calls 90000 false))) _)).
  simpl. rewrite !elem_of_cons. right. right. by left.
Defined.

End RecoveryExtra.
